(** * OpenFst: sparse tuple weights and the generic register

    A shallow embedding of [fst/sparse-tuple-weight.h] and
    [fst/generic-register.h], followed by the properties established
    about them.

    - Keys of a tuple weight are C++ [int]s (the template default
      [K = int]).  Keys are only copied and compared, never computed
      with, so they are modelled as [Z]; [kNoKey] is the constant [-1].
    - The scalar weight type [W] is a template parameter.  Its interface
      comes from [fst/weight.h] and is taken as a type class.
    - Mutation of an object is modelled by returning the updated object.
    - [uint64] arithmetic in [Hash] wraps modulo [2^64]. *)

From Stdlib Require Import ZArith List Bool Lia.
From stdpp Require Import base option gmap strings.
Import ListNotations.

(** ** The scalar weight capability *)

(** The operations of the weight class [W] that the tuple weight calls.
    [Delta] stands for the [float] argument of [Quantize]. *)
Class ScalarWeight (W Delta : Type) := {
  W_ctor : W;                      (* W(), the default constructor *)
  W_Zero : W;                      (* W::Zero() *)
  W_One : W;                       (* W::One() *)
  W_NoWeight : W;                  (* W::NoWeight() *)
  W_eq : W -> W -> bool;           (* operator==; operator!= is its negation *)
  W_Member : W -> bool;            (* Member() *)
  W_Hash : W -> Z;                 (* Hash(), a size_t *)
  W_Quantize : W -> Delta -> W     (* Quantize(delta) *)
}.

(** [std::hash<K>] for the key type. *)
Class KeyHash := key_hash : Z -> Z.

(** [operator==] of the scalar weight is an equivalence relation. *)
Class ScalarWeightEq (W Delta : Type) `{ScalarWeight W Delta} : Prop := {
  W_eq_refl : forall a, W_eq a a = true;
  W_eq_sym : forall a b, W_eq a b = W_eq b a;
  W_eq_trans : forall a b c, W_eq a b = true -> W_eq b c = true -> W_eq a c = true
}.

Module SparseTuple.

Local Open Scope Z_scope.

Abbreviation K := Z (only parsing).

(** [const static K kNoKey = -1] *)
Definition kNoKey : K := -1.

(** [uint64] wrap-around. *)
Definition wrap64 (x : Z) : Z := x mod 2 ^ 64.

Section Defs.

Context {W Delta : Type} `{SW : ScalarWeight W Delta} {KH : KeyHash}.

(** [typedef std::pair<K, W> Pair] *)
Definition Pair : Type := K * W.

(** The data members [default_], [first_], [rest_]. *)
Record SparseTupleWeight : Type := mkSTW {
  default_ : W;
  first_ : Pair;
  rest_ : list Pair
}.

(** The members as they are before a constructor body runs: [default_]
    and [first_] are default-constructed ([std::pair] value-initialises
    both halves), [rest_] is the empty list. *)
Definition unconstructed : SparseTupleWeight :=
  {| default_ := W_ctor; first_ := (0, W_ctor); rest_ := [] |}.

(** [void Init(const W &default_value)]: only [first_.first] is reset,
    [first_.second] keeps whatever it held. *)
Definition Init (w : SparseTupleWeight) (default_value : W) : SparseTupleWeight :=
  {| default_ := default_value;
     first_ := (kNoKey, snd (first_ w));
     rest_ := [] |}.

(** [void Init()] *)
Definition Init0 (w : SparseTupleWeight) : SparseTupleWeight := Init w W_Zero.

Definition SetDefaultValue (w : SparseTupleWeight) (val : W) : SparseTupleWeight :=
  {| default_ := val; first_ := first_ w; rest_ := rest_ w |}.

Definition DefaultValue (w : SparseTupleWeight) : W := default_ w.

(** [size_t Size() const] *)
Definition Size (w : SparseTupleWeight) : nat :=
  if fst (first_ w) =? kNoKey then 0%nat else (length (rest_ w) + 1)%nat.

(** [void Push(const Pair &p, bool default_value_check = true)] *)
Definition Push (w : SparseTupleWeight) (p : Pair) (default_value_check : bool)
  : SparseTupleWeight :=
  if default_value_check && W_eq (snd p) (default_ w) then w
  else if fst (first_ w) =? kNoKey then
    {| default_ := default_ w; first_ := p; rest_ := rest_ w |}
  else
    {| default_ := default_ w; first_ := first_ w; rest_ := rest_ w ++ [p] |}.

(** [void Push(const K &k, const W &w, bool default_value_check = true)] *)
Definition PushKV (w : SparseTupleWeight) (k : K) (v : W) (default_value_check : bool)
  : SparseTupleWeight :=
  Push w (k, v) default_value_check.

(** *** Constructors *)

(** [SparseTupleWeight()] *)
Definition ctor_default : SparseTupleWeight := Init0 unconstructed.

(** [explicit SparseTupleWeight(const W &w)] *)
Definition ctor_weight (w : W) : SparseTupleWeight := Init unconstructed w.

(** [SparseTupleWeight(const K &key, const W &w)] *)
Definition ctor_pair (key : K) (w : W) : SparseTupleWeight :=
  PushKV (Init0 unconstructed) key w true.

(** [SparseTupleWeight(Iterator begin, Iterator end)] *)
Definition ctor_range (l : list Pair) : SparseTupleWeight :=
  fold_left (fun w p => Push w p true) l (Init0 unconstructed).

Definition Zero : SparseTupleWeight := ctor_default.
Definition One : SparseTupleWeight := ctor_weight W_One.
Definition NoWeight : SparseTupleWeight := ctor_weight W_NoWeight.

(** *** SparseTupleWeightIterator

    The iterator keeps references to [first_] and [rest_] of the weight
    it walks, the flag [init_] and a list iterator [iter_]; the list
    iterator is modelled by the part of [rest_] from the cursor on. *)
Record SparseTupleWeightIterator : Type := mkIt {
  it_first : Pair;
  it_rest : list Pair;
  init_ : bool;
  iter_ : list Pair
}.

(** [explicit SparseTupleWeightIterator(const SparseTupleWeight<W, K> &w)] *)
Definition it_begin (w : SparseTupleWeight) : SparseTupleWeightIterator :=
  {| it_first := first_ w; it_rest := rest_ w; init_ := true; iter_ := rest_ w |}.

Definition Done (it : SparseTupleWeightIterator) : bool :=
  if init_ it then fst (it_first it) =? kNoKey
  else match iter_ it with [] => true | _ :: _ => false end.

(** [Value()] dereferences [iter_] when [init_] is false; at the end of
    the list that is undefined in C++ and no loop of the file does it
    (they test [Done()] first).  The model returns [first_] there. *)
Definition Value (it : SparseTupleWeightIterator) : Pair :=
  if init_ it then it_first it else hd (it_first it) (iter_ it).

(** [Next()] is [++iter_] once [init_] is false; with [iter_] at the end
    of the list that is undefined in C++.  No loop of the file does it
    (they test [Done()] first); the model leaves the cursor at the end. *)
Definition Next (it : SparseTupleWeightIterator) : SparseTupleWeightIterator :=
  if init_ it then
    {| it_first := it_first it; it_rest := it_rest it; init_ := false; iter_ := iter_ it |}
  else
    {| it_first := it_first it; it_rest := it_rest it; init_ := false; iter_ := tl (iter_ it) |}.

Definition Reset (it : SparseTupleWeightIterator) : SparseTupleWeightIterator :=
  {| it_first := it_first it; it_rest := it_rest it; init_ := true; iter_ := it_rest it |}.

(** The loop [for (it(w); !it.Done(); it.Next()) body(it.Value())],
    threading the state [a] that the body updates.  [fuel] bounds the
    number of iterations. *)
Fixpoint for_loop {A : Type} (fuel : nat) (it : SparseTupleWeightIterator)
    (body : Pair -> A -> A) (a : A) : A :=
  match fuel with
  | O => a
  | S fuel' =>
      if Done it then a
      else for_loop fuel' (Next it) body (body (Value it) a)
  end.

(** The loop over a whole weight.  It makes at most [rest_.size() + 1]
    iterations ([for_each_fold] below shows that it visits every stored
    pair, and [for_loop_fuel] that more fuel changes nothing). *)
Definition for_each {A : Type} (w : SparseTupleWeight) (body : Pair -> A -> A) (a : A) : A :=
  for_loop (S (length (rest_ w))) (it_begin w) body a.

(** The pairs an iterator still has to yield, and the pairs stored in a
    weight (what a fresh iterator yields). *)
Definition remaining (it : SparseTupleWeightIterator) : list Pair :=
  if init_ it then
    (if fst (it_first it) =? kNoKey then [] else it_first it :: iter_ it)
  else iter_ it.

Definition components (w : SparseTupleWeight) : list Pair :=
  if fst (first_ w) =? kNoKey then [] else first_ w :: rest_ w.

(** *** Copy, membership, hash, quantisation *)

(** [SparseTupleWeight(const SparseTupleWeight &w)] *)
Definition ctor_copy (w : SparseTupleWeight) : SparseTupleWeight :=
  let this := Init unconstructed (DefaultValue w) in
  let this := SetDefaultValue this (DefaultValue w) in
  for_each w (fun p this => Push this p true) this.

(** [bool Member() const] *)
Definition Member (w : SparseTupleWeight) : bool :=
  if negb (W_Member (DefaultValue w)) then false
  else for_each w (fun p ok => ok && W_Member (snd p)) true.

(** One round of the hash loop:
    [h = 5 * h + H(it.Value().first); h = 13 * h + it.Value().second.Hash()]. *)
Definition hash_step (p : Pair) (h : Z) : Z :=
  let h := wrap64 (5 * h + key_hash (fst p)) in
  wrap64 (13 * h + W_Hash (snd p)).

(** [size_t Hash() const] *)
Definition Hash (w : SparseTupleWeight) : Z :=
  for_each w hash_step 0.

(** [SparseTupleWeight Quantize(float delta = kDelta) const] *)
Definition Quantize (this : SparseTupleWeight) (delta : Delta) : SparseTupleWeight :=
  let w := ctor_default in
  for_each this (fun p w => PushKV w (fst p) (W_Quantize (snd p) delta) true) w.

(** *** SparseTupleWeightMap *)

(** The [while] loop of [SparseTupleWeightMap]; [M k v1 v2] is
    [operator_mapper.Map(k, v1, v2)].  One unit of fuel is spent per
    iteration; [None] means the fuel ran out. *)
Fixpoint map_loop (fuel : nat) (M : K -> W -> W -> W) (v1_def v2_def : W)
    (ret : SparseTupleWeight) (w1_it w2_it : SparseTupleWeightIterator)
  : option SparseTupleWeight :=
  if negb (Done w1_it) || negb (Done w2_it) then
    match fuel with
    | O => None
    | S fuel' =>
        let k1 := if Done w1_it then fst (Value w2_it) else fst (Value w1_it) in
        let k2 := if Done w2_it then fst (Value w1_it) else fst (Value w2_it) in
        let v1 := if Done w1_it then v1_def else snd (Value w1_it) in
        let v2 := if Done w2_it then v2_def else snd (Value w2_it) in
        if k1 =? k2 then
          map_loop fuel' M v1_def v2_def
            (PushKV ret k1 (M k1 v1 v2) true)
            (if negb (Done w1_it) then Next w1_it else w1_it)
            (if negb (Done w2_it) then Next w2_it else w2_it)
        else if k1 <? k2 then
          map_loop fuel' M v1_def v2_def
            (PushKV ret k1 (M k1 v1 v2_def) true) (Next w1_it) w2_it
        else
          map_loop fuel' M v1_def v2_def
            (PushKV ret k2 (M k2 v1_def v2) true) w1_it (Next w2_it)
    end
  else Some ret.

(** [SparseTupleWeightMap(ret, w1, w2, operator_mapper)], for [ret]
    pointing to an object other than [w1] and [w2]; the result is the
    final contents of [*ret]. *)
Definition SparseTupleWeightMap (ret w1 w2 : SparseTupleWeight) (M : K -> W -> W -> W)
  : option SparseTupleWeight :=
  let v1_def := DefaultValue w1 in
  let v2_def := DefaultValue w2 in
  let ret := SetDefaultValue ret (M 0 v1_def v2_def) in
  map_loop (Size w1 + Size w2) M v1_def v2_def ret (it_begin w1) (it_begin w2).

(** *** operator== *)

Fixpoint eq_loop (fuel : nat) (v1_def v2_def : W)
    (w1_it w2_it : SparseTupleWeightIterator) : option bool :=
  if negb (Done w1_it) || negb (Done w2_it) then
    match fuel with
    | O => None
    | S fuel' =>
        let k1 := if Done w1_it then fst (Value w2_it) else fst (Value w1_it) in
        let k2 := if Done w2_it then fst (Value w1_it) else fst (Value w2_it) in
        let v1 := if Done w1_it then v1_def else snd (Value w1_it) in
        let v2 := if Done w2_it then v2_def else snd (Value w2_it) in
        if k1 =? k2 then
          if negb (W_eq v1 v2) then Some false
          else eq_loop fuel' v1_def v2_def
                 (if negb (Done w1_it) then Next w1_it else w1_it)
                 (if negb (Done w2_it) then Next w2_it else w2_it)
        else if k1 <? k2 then
          if negb (W_eq v1 v2_def) then Some false
          else eq_loop fuel' v1_def v2_def (Next w1_it) w2_it
        else
          if negb (W_eq v1_def v2) then Some false
          else eq_loop fuel' v1_def v2_def w1_it (Next w2_it)
    end
  else Some true.

(** [bool operator==(const SparseTupleWeight &w1, const SparseTupleWeight &w2)] *)
Definition operator_eq (w1 w2 : SparseTupleWeight) : option bool :=
  let v1_def := DefaultValue w1 in
  let v2_def := DefaultValue w2 in
  if negb (W_eq v1_def v2_def) then Some false
  else eq_loop (Size w1 + Size w2) v1_def v2_def (it_begin w1) (it_begin w2).

(** [bool operator!=(w1, w2)] *)
Definition operator_ne (w1 w2 : SparseTupleWeight) : option bool :=
  negb <$> operator_eq w1 w2.

(** *** Text serialisation *)

(** Modelled from the spec: [CompositeWeightWriter] and
    [CompositeWeightReader] are declared in [fst/weight.h], which is not
    part of the sources at hand.  The spec describes the framing as an
    ordered sequence of typed elements between a begin and an end
    marker, read back symmetrically with an "are there more elements"
    answer.  The stream between the two markers is a list of elements;
    [WriteElement] appends one, [ReadElement] takes the next one of the
    requested type and tells whether more follow. *)
Inductive Element : Type :=
  | ElemW (v : W)
  | ElemK (k : K).

Definition WriteElementW (strm : list Element) (v : W) : list Element := strm ++ [ElemW v].
Definition WriteElementK (strm : list Element) (k : K) : list Element := strm ++ [ElemK k].

Definition more_elements (strm : list Element) : bool :=
  match strm with [] => false | _ :: _ => true end.

Definition ReadElementW (strm : list Element) : option (W * bool * list Element) :=
  match strm with
  | ElemW v :: strm' => Some (v, more_elements strm', strm')
  | _ => None
  end.

Definition ReadElementK (strm : list Element) : option (K * bool * list Element) :=
  match strm with
  | ElemK k :: strm' => Some (k, more_elements strm', strm')
  | _ => None
  end.

(** [std::ostream &operator<<(std::ostream &strm, const SparseTupleWeight &w)]:
    the elements written between [WriteBegin] and [WriteEnd]. *)
Definition operator_out (w : SparseTupleWeight) : list Element :=
  let strm := WriteElementW [] (DefaultValue w) in
  for_each w (fun p strm => WriteElementW (WriteElementK strm (fst p)) (snd p)) strm.

(** The [while (more)] loop of [operator>>]. *)
Fixpoint read_loop (fuel : nat) (more : bool) (strm : list Element)
    (w : SparseTupleWeight) : option SparseTupleWeight :=
  if more then
    match fuel with
    | O => None
    | S fuel' =>
        match ReadElementK strm with
        | None => None
        | Some (key, _, strm1) =>
            match ReadElementW strm1 with
            | None => None
            | Some (v, more', strm2) =>
                read_loop fuel' more' strm2 (PushKV w key v true)
            end
        end
    end
  else Some w.

(** [std::istream &operator>>(std::istream &strm, SparseTupleWeight &w)]
    on the elements between the markers; [None] when the stream does
    not hold a weight followed by key and weight pairs. *)
Definition operator_in (strm : list Element) (w : SparseTupleWeight)
  : option SparseTupleWeight :=
  match ReadElementW strm with
  | None => None
  | Some (def, more, strm') => read_loop (length strm') more strm' (Init w def)
  end.

(** *** Assignment

    [operator=] compares the addresses of its two operands, so the
    objects live in a store indexed by address. *)
Definition addr := nat.

(** The part of [operator=] after the test for [w = w].  The iterator
    is built on [*w] once [Init] has run on [*this], so it reads the
    store after that update; when the two addresses differ the loop
    only writes [*this] and [*w] stays as the iterator saw it. *)
Definition assign_body (st : gmap addr SparseTupleWeight) (this w : addr)
  : option (addr * gmap addr SparseTupleWeight) :=
  match st !! this, st !! w with
  | Some wthis, Some wsrc =>
      let st1 := <[this := Init wthis (DefaultValue wsrc)]> st in
      match st1 !! this, st1 !! w with
      | Some wthis1, Some wsrc1 =>
          Some (this, <[this := for_each wsrc1 (fun p t => Push t p true) wthis1]> st1)
      | _, _ => None
      end
  | _, _ => None
  end.

(** [SparseTupleWeight &operator=(const SparseTupleWeight &w)]: the
    result is the address returned (that of [*this]) and the store. *)
Definition operator_assign (st : gmap addr SparseTupleWeight) (this w : addr)
  : option (addr * gmap addr SparseTupleWeight) :=
  if decide (this = w) then Some (this, st)
  else assign_body st this w.

End Defs.

Arguments SparseTupleWeight W : clear implicits.
Arguments SparseTupleWeightIterator W : clear implicits.
Arguments Element W : clear implicits.

End SparseTuple.

(** ** The generic register

    Every member function takes the register's mutex for its whole
    body, so calls are modelled as atomic steps on [register_table_],
    a [std::map] from keys to entries. *)

Module Register.

Section Defs.

(** [KeyType] must be usable as the key of a [std::map]; [EntryType]
    must be default constructible ([EntryType_ctor] is [EntryType()]). *)
Context {KeyType : Type} `{Countable KeyType}.
Context {EntryType : Type} (EntryType_ctor : EntryType).

(** What [LoadEntryFromSharedObject] depends on outside the class:
    - [no_dynamic_linking]: whether [FST_NO_DYNAMIC_LINKING] is defined;
    - [ConvertKeyToSoFilename], pure virtual in [GenericRegister];
    - [dlopen]: whether the handle returned is non-null, and the table
      as the static registerers of the loaded object left it (they
      call [SetEntry] on the register);
    - [run_module_initializers]: the macro [RUN_MODULE_INITIALIZERS]
      (the identity when it is not defined). *)
Record Linker : Type := mkLinker {
  no_dynamic_linking : bool;
  ConvertKeyToSoFilename : KeyType -> string;
  dlopen : string -> gmap KeyType EntryType -> bool * gmap KeyType EntryType;
  run_module_initializers : gmap KeyType EntryType -> gmap KeyType EntryType
}.

(** [void SetEntry(const KeyType &key, const EntryType &entry)]:
    [std::map::insert] leaves the map alone when the key is present. *)
Definition SetEntry (register_table_ : gmap KeyType EntryType)
    (key : KeyType) (entry : EntryType) : gmap KeyType EntryType :=
  match register_table_ !! key with
  | Some _ => register_table_
  | None => <[key := entry]> register_table_
  end.

(** [virtual const EntryType *LookupEntry(const KeyType &key) const];
    [None] is the null pointer. *)
Definition LookupEntry (register_table_ : gmap KeyType EntryType)
    (key : KeyType) : option EntryType :=
  register_table_ !! key.

(** [virtual EntryType LoadEntryFromSharedObject(const KeyType &key) const].
    The table is returned with the entry because loading may register
    entries.  [LOG(ERROR)] only prints. *)
Definition LoadEntryFromSharedObject (ld : Linker)
    (register_table_ : gmap KeyType EntryType) (key : KeyType)
  : EntryType * gmap KeyType EntryType :=
  if no_dynamic_linking ld then (EntryType_ctor, register_table_)
  else
    let so_filename := ConvertKeyToSoFilename ld key in
    let '(handle, table1) := dlopen ld so_filename register_table_ in
    if negb handle then (EntryType_ctor, table1)
    else
      let table2 := run_module_initializers ld table1 in
      match LookupEntry table2 key with
      | None => (EntryType_ctor, table2)
      | Some entry => (entry, table2)
      end.

(** [EntryType GetEntry(const KeyType &key) const] *)
Definition GetEntry (ld : Linker) (register_table_ : gmap KeyType EntryType)
    (key : KeyType) : EntryType * gmap KeyType EntryType :=
  match LookupEntry register_table_ key with
  | Some entry => (entry, register_table_)
  | None => LoadEntryFromSharedObject ld register_table_ key
  end.

(** [GenericRegisterer(Key key, Entry entry)] on the register's table. *)
Definition GenericRegisterer (register_table_ : gmap KeyType EntryType)
    (key : KeyType) (entry : EntryType) : gmap KeyType EntryType :=
  SetEntry register_table_ key entry.

End Defs.

End Register.

(** ** The command-line tools

    [fstconvert.cc] and [fstreverse.cc].  The script-level classes and
    functions they call ([FstClass], [Convert], [Reverse], the flag
    macros) are declared in headers outside the sources at hand and
    are taken as parameters.  [argv] is the argument vector as
    [SET_FLAGS] leaves it (flags removed), [argc] its length.  What a
    run does to the outside is recorded as a list of outputs. *)

Module Tools.

Section Defs.

Context {FstClass ArcType : Type}.

(** - [Read]: [FstClass::Read(name)], [None] for the null pointer;
    - [FstType], [ArcTypeOf]: [FstType()] and [ArcType()] of an FST;
    - [Convert]: [s::Convert(fst, type)], [None] for the null pointer;
    - [VectorFstClass]: the constructor from an arc type;
    - [Reverse]: [s::Reverse(ifst, &out, flag)], giving the new [out];
    - [Write]: [Write(name)] and the [bool] it returns. *)
Record Script : Type := mkScript {
  Read : string -> option FstClass;
  FstType : FstClass -> string;
  ArcTypeOf : FstClass -> ArcType;
  Convert : FstClass -> string -> option FstClass;
  VectorFstClass : ArcType -> FstClass;
  Reverse : FstClass -> FstClass -> bool -> FstClass;
  Write : FstClass -> string -> bool
}.

Inductive Output : Type :=
  | ShowUsage (usage : string)
  | Written (fst : FstClass) (name : string) (ok : bool).

(** [argv[i]] *)
Definition arg (argv : list string) (i : nat) : string := nth i argv EmptyString.

Definition newline : string := String (Ascii.ascii_of_nat 10) EmptyString.

Definition usage_text (what : string) (argv : list string) : string :=
  String.append what
    (String.append newline
       (String.append newline
          (String.append "  Usage: "
             (String.append (arg argv 0)
                (String.append " [in.fst [out.fst]]" newline))))).

(** [in_name] and [out_name] as both tools compute them. *)
Definition in_name (argv : list string) : string :=
  if (1 <? length argv)%nat && negb (String.eqb (arg argv 1) "-")
  then arg argv 1 else EmptyString.

Definition out_name (argv : list string) : string :=
  if (2 <? length argv)%nat then arg argv 2 else EmptyString.

(** [main] of [fstconvert.cc]: the exit status and the outputs. *)
Definition fstconvert_main (sc : Script) (FLAGS_fst_type : string) (argv : list string)
  : Z * list Output :=
  let usage := usage_text "Converts an FST to another type." argv in
  if (3 <? length argv)%nat then (1%Z, [ShowUsage usage])
  else
    match Read sc (in_name argv) with
    | None => (1%Z, [])
    | Some ifst =>
        if negb (String.eqb (FstType sc ifst) FLAGS_fst_type) then
          match Convert sc ifst FLAGS_fst_type with
          | None => (1%Z, [])
          | Some ofst => (0%Z, [Written ofst (out_name argv) (Write sc ofst (out_name argv))])
          end
        else (0%Z, [Written ifst (out_name argv) (Write sc ifst (out_name argv))])
    end.

(** [main] of [fstreverse.cc]. *)
Definition fstreverse_main (sc : Script) (FLAGS_require_superinitial : bool)
    (argv : list string) : Z * list Output :=
  let usage := usage_text "Reverses the paths in an FST." argv in
  if (3 <? length argv)%nat then (1%Z, [ShowUsage usage])
  else
    match Read sc (in_name argv) with
    | None => (1%Z, [])
    | Some ifst =>
        let out := VectorFstClass sc (ArcTypeOf sc ifst) in
        let out := Reverse sc ifst out FLAGS_require_superinitial in
        (0%Z, [Written out (out_name argv) (Write sc out (out_name argv))])
    end.

End Defs.

Arguments Script : clear implicits.
Arguments Output : clear implicits.

End Tools.

(** ** A concrete scalar weight

    Integer weights with exact comparison, used to run the definitions
    on concrete inputs.  [Quantize] rounds to the nearest multiple of
    [delta], as [floor(v / delta + 0.5) * delta] does for floats. *)

Module IntWeight.

Local Open Scope Z_scope.

Definition quantize (v delta : Z) : Z := (2 * v + delta) / (2 * delta) * delta.

#[export] Instance int_weight : ScalarWeight Z Z := {|
  W_ctor := 0;
  W_Zero := 0;
  W_One := 1;
  W_NoWeight := -1;
  W_eq := Z.eqb;
  W_Member := fun v => negb (v =? -1);
  W_Hash := fun v => v mod 2 ^ 64;
  W_Quantize := quantize
|}.

#[export] Instance int_key_hash : KeyHash := fun k => k mod 2 ^ 64.

(** Mappers for [SparseTupleWeightMap]: one that ignores the key and
    one whose result depends on it. *)
Definition plus_mapper (k : Z) (v1 v2 : Z) : Z := v1 + v2.
Definition keyed_mapper (k : Z) (v1 v2 : Z) : Z := v1 + v2 + k.

End IntWeight.

(** * Properties *)

Module SparseTupleFacts.

Import SparseTuple.
Local Open Scope Z_scope.

Section Facts.

Context {W Delta : Type} `{SW : ScalarWeight W Delta} {KH : KeyHash}.

Implicit Types (w : SparseTupleWeight W) (it : SparseTupleWeightIterator W).
Implicit Types (p : Pair (W:=W)) (l : list (Pair (W:=W))).

(** A weight is well formed when an empty inline slot comes with an
    empty tail list; [Init] establishes this and [Push] keeps it. *)
Definition wf w : Prop := fst (first_ w) = kNoKey -> rest_ w = [].

(** *** The iterator *)

Lemma Done_remaining it : Done it = true <-> remaining it = [].
Proof.
  unfold Done, remaining.
  destruct (init_ it).
  - destruct (fst (it_first it) =? kNoKey); split; congruence.
  - destruct (iter_ it); split; congruence.
Qed.

Lemma remaining_step it :
  Done it = false -> remaining it = Value it :: remaining (Next it).
Proof.
  unfold Done, remaining, Value, Next.
  destruct (init_ it); simpl.
  - destruct (fst (it_first it) =? kNoKey); [discriminate | reflexivity].
  - destruct (iter_ it); [discriminate | reflexivity].
Qed.

Lemma remaining_begin w : remaining (it_begin w) = components w.
Proof. reflexivity. Qed.

Lemma Size_components w : Size w = length (components w).
Proof.
  unfold Size, components.
  destruct (fst (first_ w) =? kNoKey); simpl; lia.
Qed.

(** With fuel for every remaining pair the loop is the left fold of its
    body over them. *)
Lemma for_loop_fold {A : Type} (body : Pair -> A -> A) fuel :
  forall it (a : A),
    (length (remaining it) <= fuel)%nat ->
    for_loop fuel it body a = fold_left (fun a p => body p a) (remaining it) a.
Proof.
  induction fuel as [|fuel IH]; intros it a Hlen.
  - destruct (remaining it); [reflexivity | simpl in Hlen; lia].
  - simpl. destruct (Done it) eqn:Hd.
    + apply Done_remaining in Hd. now rewrite Hd.
    + rewrite (remaining_step it Hd) in Hlen |- *. simpl in *.
      apply IH. lia.
Qed.

(** More fuel than that changes nothing: the loop has finished. *)
Lemma for_loop_fuel {A : Type} (body : Pair -> A -> A) fuel fuel' it (a : A) :
  (length (remaining it) <= fuel)%nat ->
  (length (remaining it) <= fuel')%nat ->
  for_loop fuel it body a = for_loop fuel' it body a.
Proof. intros H1 H2. now rewrite !for_loop_fold. Qed.

Lemma for_each_fold {A : Type} w (body : Pair -> A -> A) (a : A) :
  for_each w body a = fold_left (fun a p => body p a) (components w) a.
Proof.
  unfold for_each. rewrite for_loop_fold; [reflexivity |].
  rewrite remaining_begin. unfold components.
  destruct (fst (first_ w) =? kNoKey); simpl; lia.
Qed.

(** *** Init and Push *)

Lemma Init_components w d : components (Init w d) = [].
Proof. reflexivity. Qed.

Lemma Init_wf w d : wf (Init w d).
Proof. intros _. reflexivity. Qed.

Lemma Push_default w p c : default_ (Push w p c) = default_ w.
Proof.
  unfold Push.
  destruct (c && W_eq (snd p) (default_ w)); [reflexivity |].
  destruct (fst (first_ w) =? kNoKey); reflexivity.
Qed.

Lemma Push_elided w p : W_eq (snd p) (default_ w) = true -> Push w p true = w.
Proof. intros Heq. unfold Push. simpl. now rewrite Heq. Qed.

(** A push that is not elided appends to the stored pairs, unless it
    puts the reserved key into the empty inline slot. *)
Lemma Push_stored w p c :
  wf w ->
  c && W_eq (snd p) (default_ w) = false ->
  components w <> [] \/ fst p <> kNoKey ->
  components (Push w p c) = components w ++ [p] /\ wf (Push w p c).
Proof.
  intros Hwf Hc Hne. unfold Push, components, wf in *. rewrite Hc.
  destruct (fst (first_ w) =? kNoKey) eqn:Hk; simpl.
  - apply Z.eqb_eq in Hk. rewrite (Hwf Hk).
    destruct Hne as [Hne | Hne]; [congruence |].
    apply Z.eqb_neq in Hne. rewrite Hne. split; [reflexivity | intros Hp].
    apply Z.eqb_neq in Hne. contradiction.
  - rewrite Hk. split; [reflexivity |].
    intros Hp. apply Z.eqb_neq in Hk. contradiction.
Qed.

Lemma Push_wf w p c : wf w -> wf (Push w p c).
Proof.
  intros Hwf. unfold Push.
  destruct (c && W_eq (snd p) (default_ w)); [assumption |].
  unfold wf in *.
  destruct (fst (first_ w) =? kNoKey) eqn:Hk; simpl.
  - intros _. apply Hwf. now apply Z.eqb_eq.
  - intros Hp. apply Z.eqb_neq in Hk. contradiction.
Qed.

Definition push_all (check : bool) l w : SparseTupleWeight W :=
  fold_left (fun w p => Push w p check) l w.

Lemma push_all_default check l : forall w, default_ (push_all check l w) = default_ w.
Proof.
  induction l as [|p l IH]; intros w; simpl; [reflexivity |].
  unfold push_all in *. simpl. now rewrite IH, Push_default.
Qed.

Lemma push_all_wf check l : forall w, wf w -> wf (push_all check l w).
Proof.
  induction l as [|p l IH]; intros w Hwf; simpl; [assumption |].
  apply IH. now apply Push_wf.
Qed.

(** The stored value differs from the default [d]. *)
Definition stored_value (d : W) p : bool := negb (W_eq (snd p) d).

(** Checked pushes of pairs with keys other than [kNoKey] append the
    pairs whose value differs from the default, in order. *)
Lemma push_all_filter l : forall w,
  wf w ->
  Forall (fun p => fst p <> kNoKey) l ->
  components (push_all true l w)
  = components w ++ List.filter (stored_value (default_ w)) l.
Proof.
  induction l as [|p l IH]; intros w Hwf Hk; simpl.
  - now rewrite app_nil_r.
  - inversion Hk as [|? ? Hp Hl]; subst.
    unfold push_all in *. simpl. unfold stored_value at 1.
    destruct (W_eq (snd p) (default_ w)) eqn:He; simpl.
    + rewrite (Push_elided w p He). now apply IH.
    + destruct (Push_stored w p true Hwf) as [Hc Hwf']; [now rewrite He | now right |].
      rewrite IH, Hc, Push_default, <- app_assoc by assumption. reflexivity.
Qed.

(** Pushes none of which is elided reproduce the pairs, provided the
    first one does not hit the empty inline slot with the reserved key. *)
Lemma push_all_exact check l : forall w,
  wf w ->
  Forall (fun p => check && W_eq (snd p) (default_ w) = false) l ->
  components w <> [] \/ match l with [] => True | p :: _ => fst p <> kNoKey end ->
  components (push_all check l w) = components w ++ l.
Proof.
  induction l as [|p l IH]; intros w Hwf Hv Hk; simpl.
  - now rewrite app_nil_r.
  - inversion Hv as [|? ? Hp Hl]; subst.
    destruct (Push_stored w p check Hwf Hp) as [Hc Hwf'].
    { destruct Hk; [now left | now right]. }
    unfold push_all in *. simpl. rewrite IH, Hc, <- app_assoc; try assumption.
    + reflexivity.
    + now rewrite Push_default.
    + left. rewrite Hc. now destruct (components w).
Qed.

(** The first stored pair never carries the reserved key. *)
Lemma components_head w :
  match components w with [] => True | p :: _ => fst p <> kNoKey end.
Proof.
  unfold components.
  destruct (fst (first_ w) =? kNoKey) eqn:Hk; [exact I |].
  now apply Z.eqb_neq.
Qed.

(** Strictly increasing keys, the order in which callers are expected
    to push. *)
Fixpoint increasing_from (k : K) l : bool :=
  match l with
  | [] => true
  | p :: l' => (k <? fst p) && increasing_from (fst p) l'
  end.

Definition increasing l : bool :=
  match l with
  | [] => true
  | p :: l' => increasing_from (fst p) l'
  end.

(** *** Size *)

Lemma Size_push_all l w0 d :
  Forall (fun p => fst p <> kNoKey) l ->
  Size (push_all true l (Init w0 d)) = length (List.filter (stored_value d) l).
Proof.
  intros Hk. rewrite Size_components, push_all_filter; auto using Init_wf.
Qed.

(** C7.  Keys are the values of [K] other than [kNoKey], which the
    class reserves for its own use.  Starting from a freshly
    initialised weight with default [d], after checked pushes of pairs
    with such keys and with values that differ from [d], [Size()] is
    the number of pushes (for strictly increasing keys in particular);
    and a checked push of a value equal to the current default leaves
    the weight, hence its size, as it was. *)
Theorem Size_counts_pushes l w0 d :
  Forall (fun p => fst p <> kNoKey) l ->
  Forall (fun p => W_eq (snd p) d = false) l ->
  Size (push_all true l (Init w0 d)) = length l
  /\ (forall w p, W_eq (snd p) (default_ w) = true ->
        Push w p true = w /\ Size (Push w p true) = Size w).
Proof.
  intros Hk Hv. split.
  - rewrite Size_push_all by assumption. f_equal.
    clear Hk. induction Hv as [|p l Hp _ IH]; simpl; [reflexivity |].
    unfold stored_value at 1. rewrite Hp. simpl. now rewrite IH.
  - intros w p He. now rewrite (Push_elided w p He).
Qed.

(** *** Copy and hash *)

Lemma ctor_copy_push w :
  ctor_copy w = push_all true (components w) (Init unconstructed (default_ w)).
Proof. unfold ctor_copy. now rewrite for_each_fold. Qed.

Lemma Hash_fold w : Hash w = fold_left (fun h p => hash_step p h) (components w) 0.
Proof. unfold Hash. now rewrite for_each_fold. Qed.

(** C8, amended.  For a weight none of whose stored values equals its
    default, the copy has the same default and the same stored pairs
    and therefore the same hash; the hash is the rolling fold of
    [hash_step] over the stored pairs in storage order, from 0, and
    does not read the default. *)
Theorem Hash_copy w :
  Forall (fun p => W_eq (snd p) (default_ w) = false) (components w) ->
  default_ (ctor_copy w) = default_ w
  /\ components (ctor_copy w) = components w
  /\ Hash (ctor_copy w) = Hash w
  /\ Hash w = fold_left (fun h p => hash_step p h) (components w) 0.
Proof.
  intros Hv.
  assert (Hc : components (ctor_copy w) = components w).
  { rewrite ctor_copy_push, push_all_exact; auto using Init_wf.
    right. apply components_head. }
  repeat split.
  - now rewrite ctor_copy_push, push_all_default.
  - exact Hc.
  - now rewrite !Hash_fold, Hc.
  - apply Hash_fold.
Qed.

(** *** Quantize *)

Definition quantize_pair (delta : Delta) p : Pair (W:=W) :=
  (fst p, W_Quantize (snd p) delta).

Lemma Quantize_push w delta :
  Quantize w delta = push_all true (map (quantize_pair delta) (components w)) ctor_default.
Proof.
  unfold Quantize. rewrite for_each_fold. unfold push_all.
  generalize (ctor_default (W:=W)).
  induction (components w) as [|p l IH]; intros acc; simpl; [reflexivity |].
  apply IH.
Qed.

(** The weight returned by [Quantize] starts as a default-constructed
    weight, so its default is [W::Zero()] whatever the default of the
    weight quantised. *)
Lemma Quantize_default w delta : default_ (Quantize w delta) = W_Zero.
Proof. now rewrite Quantize_push, push_all_default. Qed.

(** X22.  For a weight whose stored keys are not the reserved
    [kNoKey], the pairs stored in [Quantize(delta)] are, in storage
    order, the stored pairs of the weight with their values quantised,
    except those whose quantised value equals the default of the
    returned weight, which the push elides. *)
Theorem Quantize_components w delta :
  Forall (fun p => fst p <> kNoKey) (components w) ->
  components (Quantize w delta)
  = List.filter (stored_value (default_ (Quantize w delta)))
      (map (quantize_pair delta) (components w)).
Proof.
  intros Hk. rewrite Quantize_default, Quantize_push, push_all_filter.
  - reflexivity.
  - apply Init_wf.
  - rewrite Forall_map. exact Hk.
Qed.

(** *** Writing and reading back *)

Definition encode_pair p : list (Element W) := [ElemK (fst p); ElemW (snd p)].

Lemma write_pairs_fold l : forall strm : list (Element W),
  fold_left (fun strm p => WriteElementW (WriteElementK strm (fst p)) (snd p)) l strm
  = strm ++ flat_map encode_pair l.
Proof.
  induction l as [|p l IH]; intros strm; simpl.
  - now rewrite app_nil_r.
  - rewrite IH. unfold WriteElementW, WriteElementK.
    now rewrite <- !app_assoc.
Qed.

Lemma operator_out_elements w :
  operator_out w = ElemW (default_ w) :: flat_map encode_pair (components w).
Proof.
  unfold operator_out. rewrite for_each_fold, write_pairs_fold. reflexivity.
Qed.

(** Reading the encoded pairs pushes each of them with the default
    check on. *)
Lemma read_loop_encoded l : forall fuel acc,
  (length l <= fuel)%nat ->
  read_loop fuel (more_elements (flat_map encode_pair l)) (flat_map encode_pair l) acc
  = Some (push_all true l acc).
Proof.
  induction l as [|p l IH]; intros fuel acc Hf; simpl.
  - destruct fuel; reflexivity.
  - destruct fuel as [|fuel]; [simpl in Hf; lia |]. simpl.
    unfold PushKV. destruct p as [k v]. simpl.
    apply IH. simpl in Hf. lia.
Qed.

Lemma operator_in_out w target :
  operator_in (operator_out w) target
  = Some (push_all true (components w) (Init target (default_ w))).
Proof.
  rewrite operator_out_elements. unfold operator_in. simpl.
  apply read_loop_encoded. clear target.
  induction (components w) as [|p l IH]; simpl in *; lia.
Qed.

(** C1, amended.  [operator>>] pushes what it reads with the default
    check on.  For a weight none of whose stored values equals its
    default, reading back what [operator<<] wrote, into any weight,
    succeeds and gives a weight with the same default and the same
    stored pairs, which is written out as the same elements. *)
Theorem read_write_roundtrip w target :
  Forall (fun p => W_eq (snd p) (default_ w) = false) (components w) ->
  exists r,
    operator_in (operator_out w) target = Some r
    /\ default_ r = default_ w
    /\ components r = components w
    /\ operator_out r = operator_out w.
Proof.
  intros Hv. eexists. split; [apply operator_in_out |].
  assert (Hc : components (push_all true (components w) (Init target (default_ w)))
               = components w).
  { rewrite push_all_exact; auto using Init_wf.
    right. apply components_head. }
  repeat split.
  - now rewrite push_all_default.
  - exact Hc.
  - now rewrite !operator_out_elements, Hc, push_all_default.
Qed.

(** *** Equality *)

(** The value a weight with default [d] and stored pairs [l] gives to
    the key [k]: the stored value when [k] is stored, [d] otherwise. *)
Fixpoint value_at (d : W) l (k : K) : W :=
  match l with
  | [] => d
  | p :: l' => if fst p =? k then snd p else value_at d l' k
  end.

Lemma iter_cases it :
  (Done it = true /\ remaining it = []) \/
  (Done it = false /\ remaining it = Value it :: remaining (Next it)).
Proof.
  destruct (Done it) eqn:Hd.
  - left. split; [reflexivity | now apply Done_remaining].
  - right. split; [reflexivity | now apply remaining_step].
Qed.

Lemma increasing_from_tail k l : increasing_from k l = true -> increasing l = true.
Proof.
  destruct l as [|p l]; simpl; [reflexivity |].
  intros H. now apply andb_true_iff in H.
Qed.

Lemma increasing_from_lt k k' l :
  k' <= k -> increasing_from k l = true -> increasing_from k' l = true.
Proof.
  destruct l as [|p l]; simpl; [reflexivity |].
  intros Hle H. apply andb_true_iff in H as [H1 H2].
  apply Z.ltb_lt in H1. apply andb_true_iff. split; [apply Z.ltb_lt; lia | exact H2].
Qed.

Lemma increasing_from_keys l : forall k k',
  increasing_from k l = true -> In k' (map fst l) -> k < k'.
Proof.
  induction l as [|p l IH]; intros k k' H Hin; simpl in *; [contradiction |].
  apply andb_true_iff in H as [H1 H2]. apply Z.ltb_lt in H1.
  destruct Hin as [<- | Hin]; [exact H1 |].
  specialize (IH _ _ H2 Hin). lia.
Qed.

Lemma value_at_absent d l k : ~ In k (map fst l) -> value_at d l k = d.
Proof.
  induction l as [|p l IH]; simpl; intros Hn; [reflexivity |].
  destruct (fst p =? k) eqn:Hk.
  - apply Z.eqb_eq in Hk. tauto.
  - apply IH. tauto.
Qed.

Lemma value_at_below d l k0 k :
  increasing_from k0 l = true -> k <= k0 -> value_at d l k = d.
Proof.
  intros H Hle. apply value_at_absent. intros Hin.
  pose proof (increasing_from_keys _ _ _ H Hin). lia.
Qed.

(** Two weights agree when they give equal values to every key. *)
Definition agree (d1 : W) l1 (d2 : W) l2 : Prop :=
  forall k, W_eq (value_at d1 l1 k) (value_at d2 l2 k) = true.

Lemma agree_nil d1 d2 : W_eq d1 d2 = true -> agree d1 [] d2 [].
Proof. intros Hd k. exact Hd. Qed.

(** Dropping the head of the left list: the head key then reads the
    default on the left. *)
Lemma agree_left d1 d2 p l1 l2 :
  W_eq d1 d2 = true ->
  increasing_from (fst p) l1 = true ->
  value_at d2 l2 (fst p) = d2 ->
  agree d1 (p :: l1) d2 l2 <-> W_eq (snd p) d2 = true /\ agree d1 l1 d2 l2.
Proof.
  intros Hd H1 H2. unfold agree. split.
  - intros Ha. split.
    + specialize (Ha (fst p)). simpl in Ha. now rewrite Z.eqb_refl, H2 in Ha.
    + intros k. specialize (Ha k). simpl in Ha.
      destruct (fst p =? k) eqn:Hk; [| exact Ha].
      apply Z.eqb_eq in Hk. subst k.
      rewrite (value_at_below d1 l1 (fst p) (fst p)), H2 by (assumption || lia).
      exact Hd.
  - intros [Hv Ha] k. simpl. destruct (fst p =? k) eqn:Hk; [| apply Ha].
    apply Z.eqb_eq in Hk. subst k. now rewrite H2.
Qed.

Lemma agree_right d1 d2 p l1 l2 :
  W_eq d1 d2 = true ->
  increasing_from (fst p) l2 = true ->
  value_at d1 l1 (fst p) = d1 ->
  agree d1 l1 d2 (p :: l2) <-> W_eq d1 (snd p) = true /\ agree d1 l1 d2 l2.
Proof.
  intros Hd H2 H1. unfold agree. split.
  - intros Ha. split.
    + specialize (Ha (fst p)). simpl in Ha. now rewrite Z.eqb_refl, H1 in Ha.
    + intros k. specialize (Ha k). simpl in Ha.
      destruct (fst p =? k) eqn:Hk; [| exact Ha].
      apply Z.eqb_eq in Hk. subst k.
      rewrite (value_at_below d2 l2 (fst p) (fst p)), H1 by (assumption || lia).
      exact Hd.
  - intros [Hv Ha] k. simpl. destruct (fst p =? k) eqn:Hk; [| apply Ha].
    apply Z.eqb_eq in Hk. subst k. now rewrite H1.
Qed.

Lemma agree_both d1 d2 p1 p2 l1 l2 :
  W_eq d1 d2 = true ->
  fst p1 = fst p2 ->
  increasing_from (fst p1) l1 = true ->
  increasing_from (fst p2) l2 = true ->
  agree d1 (p1 :: l1) d2 (p2 :: l2)
  <-> W_eq (snd p1) (snd p2) = true /\ agree d1 l1 d2 l2.
Proof.
  intros Hd Hk H1 H2. unfold agree. split.
  - intros Ha. split.
    + specialize (Ha (fst p1)). simpl in Ha.
      now rewrite <- Hk, Z.eqb_refl in Ha.
    + intros k. specialize (Ha k). simpl in Ha. rewrite <- Hk in Ha.
      destruct (fst p1 =? k) eqn:Hk1; [| exact Ha].
      apply Z.eqb_eq in Hk1. subst k.
      rewrite (value_at_below d1 l1 (fst p1) (fst p1)) by (assumption || lia).
      rewrite (value_at_below d2 l2 (fst p2) (fst p1)) by (assumption || lia).
      exact Hd.
  - intros [Hv Ha] k. simpl. rewrite <- Hk.
    destruct (fst p1 =? k); [exact Hv | apply Ha].
Qed.

(** The walk stops with [false]: [Hag] turns agreement of the lists
    into the comparison that has just failed. *)
Ltac values_differ Hag :=
  exists false; split; [reflexivity |];
  split; [discriminate | intros Ha; apply Hag in Ha as [? _]; discriminate].

(** The loop of [operator==] terminates within the fuel it is given and
    decides agreement on every key, for iterators over increasing keys
    and equal defaults. *)
Lemma eq_loop_spec d1 d2 fuel :
  W_eq d1 d2 = true ->
  forall it1 it2,
    (length (remaining it1) + length (remaining it2) <= fuel)%nat ->
    increasing (remaining it1) = true ->
    increasing (remaining it2) = true ->
    exists b, eq_loop fuel d1 d2 it1 it2 = Some b
              /\ (b = true <-> agree d1 (remaining it1) d2 (remaining it2)).
Proof.
  intros Hd. induction fuel as [|fuel IH]; intros it1 it2 Hlen H1 H2;
    destruct (iter_cases it1) as [[Hd1 Hr1] | [Hd1 Hr1]];
    destruct (iter_cases it2) as [[Hd2 Hr2] | [Hd2 Hr2]];
    rewrite Hr1 in Hlen, H1 |- *; rewrite Hr2 in Hlen, H2 |- *;
    simpl in Hlen; try lia;
    cbn [eq_loop]; rewrite Hd1, Hd2; cbn [negb orb].
  - exists true. split; [reflexivity |]. split; [intros _; now apply agree_nil | reflexivity].
  - exists true. split; [reflexivity |]. split; [intros _; now apply agree_nil | reflexivity].
  - (* w1 exhausted *)
    rewrite ?Z.eqb_refl.
    assert (Hag := agree_right d1 d2 (Value it2) [] (remaining (Next it2)) Hd H2 eq_refl).
    destruct (W_eq d1 (snd (Value it2))) eqn:Hv; cbn [negb].
    + destruct (IH it1 (Next it2)) as [b [Hb Hiff]].
      * rewrite Hr1. simpl. lia.
      * now rewrite Hr1.
      * eapply increasing_from_tail, H2.
      * exists b. split; [exact Hb |]. rewrite Hr1 in Hiff. tauto.
    + values_differ Hag.
  - (* w2 exhausted *)
    rewrite ?Z.eqb_refl.
    assert (Hag := agree_left d1 d2 (Value it1) (remaining (Next it1)) [] Hd H1 eq_refl).
    destruct (W_eq (snd (Value it1)) d2) eqn:Hv; cbn [negb].
    + destruct (IH (Next it1) it2) as [b [Hb Hiff]].
      * rewrite Hr2. simpl. lia.
      * eapply increasing_from_tail, H1.
      * now rewrite Hr2.
      * exists b. split; [exact Hb |]. rewrite Hr2 in Hiff. tauto.
    + values_differ Hag.
  - (* both have a pair *)
    simpl in H1, H2.
    destruct (fst (Value it1) =? fst (Value it2)) eqn:Hk.
    + apply Z.eqb_eq in Hk.
      assert (Hag := agree_both d1 d2 _ _ _ _ Hd Hk H1 H2).
      destruct (W_eq (snd (Value it1)) (snd (Value it2))) eqn:Hv; cbn [negb].
      * destruct (IH (Next it1) (Next it2)) as [b [Hb Hiff]].
        -- lia.
        -- eapply increasing_from_tail, H1.
        -- eapply increasing_from_tail, H2.
        -- exists b. split; [exact Hb |]. tauto.
      * values_differ Hag.
    + apply Z.eqb_neq in Hk.
      destruct (fst (Value it1) <? fst (Value it2)) eqn:Hlt.
      * apply Z.ltb_lt in Hlt.
        assert (Hag := agree_left d1 d2 (Value it1) (remaining (Next it1))
                         (Value it2 :: remaining (Next it2)) Hd H1).
        rewrite (value_at_below d2 _ (fst (Value it1)) (fst (Value it1))) in Hag;
          [specialize (Hag eq_refl) | | lia].
        2:{ simpl. apply andb_true_iff. split; [now apply Z.ltb_lt | exact H2]. }
        destruct (W_eq (snd (Value it1)) d2) eqn:Hv; cbn [negb].
        -- destruct (IH (Next it1) it2) as [b [Hb Hiff]].
           ++ rewrite Hr2. simpl. lia.
           ++ eapply increasing_from_tail, H1.
           ++ now rewrite Hr2.
           ++ exists b. split; [exact Hb |]. rewrite Hr2 in Hiff. tauto.
        -- values_differ Hag.
      * apply Z.ltb_ge in Hlt.
        assert (Hag := agree_right d1 d2 (Value it2) (Value it1 :: remaining (Next it1))
                         (remaining (Next it2)) Hd H2).
        rewrite (value_at_below d1 _ (fst (Value it2)) (fst (Value it2))) in Hag;
          [specialize (Hag eq_refl) | | lia].
        2:{ simpl. apply andb_true_iff. split; [apply Z.ltb_lt; lia | exact H1]. }
        destruct (W_eq d1 (snd (Value it2))) eqn:Hv; cbn [negb].
        -- destruct (IH it1 (Next it2)) as [b [Hb Hiff]].
           ++ rewrite Hr1. simpl. lia.
           ++ now rewrite Hr1.
           ++ eapply increasing_from_tail, H2.
           ++ exists b. split; [exact Hb |]. rewrite Hr1 in Hiff. tauto.
        -- values_differ Hag.
Qed.

(** [operator==] returns, and its answer is agreement of the defaults
    and of the values at every key. *)
Lemma operator_eq_spec w1 w2 :
  increasing (components w1) = true ->
  increasing (components w2) = true ->
  exists b, operator_eq w1 w2 = Some b
            /\ (b = true <->
                 W_eq (default_ w1) (default_ w2) = true
                 /\ agree (default_ w1) (components w1) (default_ w2) (components w2)).
Proof.
  intros H1 H2. unfold operator_eq, DefaultValue.
  destruct (W_eq (default_ w1) (default_ w2)) eqn:Hd; cbn [negb].
  - destruct (eq_loop_spec (default_ w1) (default_ w2) (Size w1 + Size w2) Hd
                (it_begin w1) (it_begin w2)) as [b [Hb Hiff]].
    + rewrite !remaining_begin, !Size_components. lia.
    + now rewrite remaining_begin.
    + now rewrite remaining_begin.
    + exists b. split; [exact Hb |]. rewrite !remaining_begin in Hiff. tauto.
  - exists false. split; [reflexivity |].
    split; [discriminate | intros [? _]; discriminate].
Qed.

(** C6.  On weights whose stored keys are strictly increasing, and for
    a scalar [operator==] that is an equivalence relation,
    [operator==] always returns; it is reflexive, symmetric and
    transitive; and it holds exactly when the defaults are equal and
    every key has equal values on both sides, a key that is not stored
    on one side reading that side's default. *)
Theorem operator_eq_equivalence `{!ScalarWeightEq W Delta} w1 w2 w3 :
  increasing (components w1) = true ->
  increasing (components w2) = true ->
  increasing (components w3) = true ->
  (exists b, operator_eq w1 w2 = Some b)
  /\ operator_eq w1 w1 = Some true
  /\ operator_eq w1 w2 = operator_eq w2 w1
  /\ (operator_eq w1 w2 = Some true -> operator_eq w2 w3 = Some true ->
      operator_eq w1 w3 = Some true)
  /\ (operator_eq w1 w2 = Some true <->
      W_eq (default_ w1) (default_ w2) = true
      /\ agree (default_ w1) (components w1) (default_ w2) (components w2)).
Proof.
  intros H1 H2 H3.
  destruct (operator_eq_spec w1 w1 H1 H1) as [b11 [E11 I11]].
  destruct (operator_eq_spec w1 w2 H1 H2) as [b12 [E12 I12]].
  destruct (operator_eq_spec w2 w1 H2 H1) as [b21 [E21 I21]].
  destruct (operator_eq_spec w2 w3 H2 H3) as [b23 [E23 I23]].
  destruct (operator_eq_spec w1 w3 H1 H3) as [b13 [E13 I13]].
  rewrite E11, E12, E21, E23, E13.
  split; [| split; [| split; [| split; [| split]]]].
  - now exists b12.
  - f_equal. apply I11. split; [apply W_eq_refl |]. intros k. apply W_eq_refl.
  - f_equal. destruct b12.
    + symmetry. apply I21. destruct (proj1 I12 eq_refl) as [Hd Ha].
      split; [now rewrite W_eq_sym |]. intros k. rewrite W_eq_sym. apply Ha.
    + destruct b21; [| reflexivity].
      apply I12. destruct (proj1 I21 eq_refl) as [Hd Ha].
      split; [now rewrite W_eq_sym |]. intros k. rewrite W_eq_sym. apply Ha.
  - intros E1 E2. f_equal. apply I13.
    inversion E1; inversion E2; subst.
    destruct (proj1 I12 eq_refl) as [Hd12 Ha12].
    destruct (proj1 I23 eq_refl) as [Hd23 Ha23].
    split; [now apply W_eq_trans with (default_ w2) |].
    intros k. eapply W_eq_trans; [apply Ha12 | apply Ha23].
  - intros E. inversion E; subst. now apply I12.
  - intros Ha. f_equal. now apply I12.
Qed.

(** *** SparseTupleWeightMap *)

(** [m] holds, for every key stored in [l1] or [l2] and for no other
    key, the mapper's result on the values the two sides give to it. *)
Definition combined (M : K -> W -> W -> W) (d1 : W) l1 (d2 : W) l2 l : Prop :=
  forall k v,
    In (k, v) l <->
    (In k (map fst l1) \/ In k (map fst l2))
    /\ v = M k (value_at d1 l1 k) (value_at d2 l2 k).

Lemma combined_nil M d1 d2 : combined M d1 [] d2 [] [].
Proof. intros k v. simpl. tauto. Qed.

(** One round of the walk: the smallest key [k0] leaves the lists and
    its combined value is put in front. *)
Lemma combined_step M d1 d2 k0 l1 l2 l1' l2' m :
  increasing_from k0 l1' = true ->
  increasing_from k0 l2' = true ->
  (forall k, k <> k0 -> value_at d1 l1 k = value_at d1 l1' k) ->
  (forall k, k <> k0 -> value_at d2 l2 k = value_at d2 l2' k) ->
  (forall k, In k (map fst l1) \/ In k (map fst l2)
             <-> k = k0 \/ In k (map fst l1') \/ In k (map fst l2')) ->
  combined M d1 l1' d2 l2' m ->
  combined M d1 l1 d2 l2 ((k0, M k0 (value_at d1 l1 k0) (value_at d2 l2 k0)) :: m).
Proof.
  intros Hi1 Hi2 Hv1 Hv2 Hkeys Hm k v.
  assert (Hfar : In k (map fst l1') \/ In k (map fst l2') -> k <> k0).
  { intros [Hin | Hin];
      [pose proof (increasing_from_keys _ _ _ Hi1 Hin)
      | pose proof (increasing_from_keys _ _ _ Hi2 Hin)]; lia. }
  simpl. rewrite (Hm k v), (Hkeys k). split.
  - intros [Heq | [Hin ->]].
    + inversion Heq; subst. split; [now left | reflexivity].
    + split; [now right |]. now rewrite Hv1, Hv2 by auto.
  - intros [Hin ->]. destruct (Z.eq_dec k k0) as [-> | Hne].
    + now left.
    + right. split; [tauto |]. now rewrite Hv1, Hv2 by auto.
Qed.

Lemma value_at_cons_ne d p l k : k <> fst p -> value_at d (p :: l) k = value_at d l k.
Proof.
  intros Hne. simpl. destruct (fst p =? k) eqn:Hk; [| reflexivity].
  apply Z.eqb_eq in Hk. congruence.
Qed.

Lemma value_at_cons_eq d p l : value_at d (p :: l) (fst p) = snd p.
Proof. simpl. now rewrite Z.eqb_refl. Qed.

Lemma increasing_from_cons k p l :
  increasing_from k (p :: l) = true <-> k < fst p /\ increasing_from (fst p) l = true.
Proof. simpl. rewrite andb_true_iff, Z.ltb_lt. tauto. Qed.

Lemma keys_cons_step p l (l' : list (Pair (W:=W))) k :
  In k (map fst (p :: l)) \/ In k (map fst l')
  <-> k = fst p \/ In k (map fst l) \/ In k (map fst l').
Proof. simpl. intuition congruence. Qed.

(** The loop of [SparseTupleWeightMap] terminates within its fuel; the
    pairs it pushes, [m], are the combined values of the two sides in
    increasing key order. *)
Lemma map_loop_spec M d1 d2 fuel :
  forall ret it1 it2,
    (length (remaining it1) + length (remaining it2) <= fuel)%nat ->
    increasing (remaining it1) = true ->
    increasing (remaining it2) = true ->
    exists m,
      map_loop fuel M d1 d2 ret it1 it2 = Some (push_all true m ret)
      /\ combined M d1 (remaining it1) d2 (remaining it2) m
      /\ increasing m = true
      /\ (forall k0, increasing_from k0 (remaining it1) = true ->
                      increasing_from k0 (remaining it2) = true ->
                      increasing_from k0 m = true).
Proof.
  induction fuel as [|fuel IH]; intros ret it1 it2 Hlen H1 H2;
    destruct (iter_cases it1) as [[Hd1 Hr1] | [Hd1 Hr1]];
    destruct (iter_cases it2) as [[Hd2 Hr2] | [Hd2 Hr2]];
    rewrite Hr1 in Hlen, H1 |- *; rewrite Hr2 in Hlen, H2 |- *;
    simpl in Hlen; try lia;
    cbn [map_loop]; rewrite Hd1, Hd2; cbn [negb orb].
  - exists []. split; [reflexivity |]. split; [apply combined_nil |]. now split.
  - exists []. split; [reflexivity |]. split; [apply combined_nil |]. now split.
  - (* w1 exhausted *)
    rewrite ?Z.eqb_refl. simpl in H2.
    destruct (IH (PushKV ret (fst (Value it2)) (M (fst (Value it2)) d1 (snd (Value it2))) true)
                it1 (Next it2)) as [m [Hm [Hc [Hi Hlow]]]].
    { rewrite Hr1. simpl. lia. }
    { now rewrite Hr1. }
    { eapply increasing_from_tail, H2. }
    rewrite Hr1 in Hc, Hlow.
    exists ((fst (Value it2), M (fst (Value it2)) d1 (snd (Value it2))) :: m).
    split; [exact Hm |]. split; [| split].
    + pose proof (combined_step M d1 d2 (fst (Value it2)) [] (Value it2 :: remaining (Next it2))
                    [] (remaining (Next it2)) m eq_refl H2) as Hs.
      rewrite value_at_cons_eq in Hs. apply Hs; clear Hs.
      * reflexivity.
      * intros k Hne. now apply value_at_cons_ne.
      * intros k. simpl. intuition congruence.
      * exact Hc.
    + simpl. now apply Hlow.
    + intros k0 _ Hk0. apply increasing_from_cons in Hk0 as [Hlt Hk0].
      apply increasing_from_cons. split; [exact Hlt |]. now apply Hlow.
  - (* w2 exhausted *)
    rewrite ?Z.eqb_refl. simpl in H1.
    destruct (IH (PushKV ret (fst (Value it1)) (M (fst (Value it1)) (snd (Value it1)) d2) true)
                (Next it1) it2) as [m [Hm [Hc [Hi Hlow]]]].
    { rewrite Hr2. simpl. lia. }
    { eapply increasing_from_tail, H1. }
    { now rewrite Hr2. }
    rewrite Hr2 in Hc, Hlow.
    exists ((fst (Value it1), M (fst (Value it1)) (snd (Value it1)) d2) :: m).
    split; [exact Hm |]. split; [| split].
    + pose proof (combined_step M d1 d2 (fst (Value it1)) (Value it1 :: remaining (Next it1)) []
                    (remaining (Next it1)) [] m H1 eq_refl) as Hs.
      rewrite value_at_cons_eq in Hs. apply Hs; clear Hs.
      * intros k Hne. now apply value_at_cons_ne.
      * reflexivity.
      * intros k. simpl. intuition congruence.
      * exact Hc.
    + simpl. now apply Hlow.
    + intros k0 Hk0 _. apply increasing_from_cons in Hk0 as [Hlt Hk0].
      apply increasing_from_cons. split; [exact Hlt |]. now apply Hlow.
  - (* both have a pair *)
    simpl in H1, H2.
    destruct (fst (Value it1) =? fst (Value it2)) eqn:Hk.
    + apply Z.eqb_eq in Hk.
      destruct (IH (PushKV ret (fst (Value it1))
                      (M (fst (Value it1)) (snd (Value it1)) (snd (Value it2))) true)
                  (Next it1) (Next it2)) as [m [Hm [Hc [Hi Hlow]]]].
      { lia. }
      { eapply increasing_from_tail, H1. }
      { eapply increasing_from_tail, H2. }
      exists ((fst (Value it1), M (fst (Value it1)) (snd (Value it1)) (snd (Value it2))) :: m).
      assert (H2' : increasing_from (fst (Value it1)) (remaining (Next it2)) = true)
        by now rewrite Hk.
      split; [exact Hm |]. split; [| split].
      * pose proof (combined_step M d1 d2 (fst (Value it1))
                      (Value it1 :: remaining (Next it1)) (Value it2 :: remaining (Next it2))
                      (remaining (Next it1)) (remaining (Next it2)) m H1 H2') as Hs.
        rewrite value_at_cons_eq in Hs. rewrite Hk in Hs at 3.
        rewrite value_at_cons_eq in Hs. apply Hs; clear Hs.
        -- intros k Hne. now apply value_at_cons_ne.
        -- intros k Hne. apply value_at_cons_ne. congruence.
        -- intros k. simpl. rewrite <- Hk. intuition congruence.
        -- exact Hc.
      * simpl. now apply Hlow.
      * intros k0 Hk0 _. apply increasing_from_cons in Hk0 as [Hlt Hk0].
        apply increasing_from_cons. split; [exact Hlt |]. now apply Hlow.
    + apply Z.eqb_neq in Hk.
      destruct (fst (Value it1) <? fst (Value it2)) eqn:Hlt.
      * apply Z.ltb_lt in Hlt.
        destruct (IH (PushKV ret (fst (Value it1)) (M (fst (Value it1)) (snd (Value it1)) d2) true)
                    (Next it1) it2) as [m [Hm [Hc [Hi Hlow]]]].
        { rewrite Hr2. simpl. lia. }
        { eapply increasing_from_tail, H1. }
        { now rewrite Hr2. }
        rewrite Hr2 in Hc, Hlow.
        exists ((fst (Value it1), M (fst (Value it1)) (snd (Value it1)) d2) :: m).
        assert (H2' : increasing_from (fst (Value it1)) (Value it2 :: remaining (Next it2)) = true)
          by now apply increasing_from_cons.
        split; [exact Hm |]. split; [| split].
        -- pose proof (combined_step M d1 d2 (fst (Value it1))
                         (Value it1 :: remaining (Next it1)) (Value it2 :: remaining (Next it2))
                         (remaining (Next it1)) (Value it2 :: remaining (Next it2)) m H1 H2') as Hs.
           rewrite value_at_cons_eq in Hs.
           rewrite (value_at_below d2 _ _ _ H2' (Z.le_refl _)) in Hs. apply Hs; clear Hs.
           ++ intros k Hne. now apply value_at_cons_ne.
           ++ reflexivity.
           ++ intros k. apply keys_cons_step.
           ++ exact Hc.
        -- simpl. now apply Hlow.
        -- intros k0 Hk0 _. apply increasing_from_cons in Hk0 as [Hlt0 Hk0].
           apply increasing_from_cons. split; [exact Hlt0 |]. now apply Hlow.
      * apply Z.ltb_ge in Hlt.
        assert (Hgt : fst (Value it2) < fst (Value it1)) by lia.
        destruct (IH (PushKV ret (fst (Value it2)) (M (fst (Value it2)) d1 (snd (Value it2))) true)
                    it1 (Next it2)) as [m [Hm [Hc [Hi Hlow]]]].
        { rewrite Hr1. simpl. lia. }
        { now rewrite Hr1. }
        { eapply increasing_from_tail, H2. }
        rewrite Hr1 in Hc, Hlow.
        exists ((fst (Value it2), M (fst (Value it2)) d1 (snd (Value it2))) :: m).
        assert (H1' : increasing_from (fst (Value it2)) (Value it1 :: remaining (Next it1)) = true)
          by now apply increasing_from_cons.
        split; [exact Hm |]. split; [| split].
        -- pose proof (combined_step M d1 d2 (fst (Value it2))
                         (Value it1 :: remaining (Next it1)) (Value it2 :: remaining (Next it2))
                         (Value it1 :: remaining (Next it1)) (remaining (Next it2)) m H1' H2) as Hs.
           rewrite value_at_cons_eq in Hs.
           rewrite (value_at_below d1 _ _ _ H1' (Z.le_refl _)) in Hs. apply Hs; clear Hs.
           ++ reflexivity.
           ++ intros k Hne. now apply value_at_cons_ne.
           ++ intros k. simpl. intuition congruence.
           ++ exact Hc.
        -- simpl. now apply Hlow.
        -- intros k0 _ Hk0. apply increasing_from_cons in Hk0 as [Hlt0 Hk0].
           apply increasing_from_cons. split; [exact Hlt0 |]. now apply Hlow.
Qed.

Lemma increasing_from_filter (f : Pair (W:=W) -> bool) l : forall k,
  increasing_from k l = true -> increasing_from k (List.filter f l) = true.
Proof.
  induction l as [|p l IH]; intros k H; simpl; [reflexivity |].
  apply increasing_from_cons in H as [Hlt H].
  destruct (f p).
  - apply increasing_from_cons. split; [exact Hlt | now apply IH].
  - apply IH. apply increasing_from_lt with (fst p); [lia | exact H].
Qed.

Lemma increasing_filter (f : Pair (W:=W) -> bool) l :
  increasing l = true -> increasing (List.filter f l) = true.
Proof.
  destruct l as [|p l]; simpl; [reflexivity |]. intros H.
  destruct (f p).
  - simpl. now apply increasing_from_filter.
  - eapply increasing_from_tail, increasing_from_filter, H.
Qed.

(** C5, amended.  For inputs whose stored keys are strictly increasing
    and are not the reserved [kNoKey], and a freshly initialised result
    weight, [SparseTupleWeightMap] returns; the default of the result is
    the mapper applied at the key 0 (not at [kNoKey]) to the two
    defaults; the result stores, in increasing key order, exactly the
    pairs [(k, Map(k, v1, v2))] for the keys [k] stored in either input
    ([v1], [v2] the stored value or else the default of that side),
    except those whose value equals the new default, which the push
    elides. *)
Theorem SparseTupleWeightMap_spec (M : K -> W -> W -> W) r0 d0 w1 w2 :
  increasing (components w1) = true ->
  increasing (components w2) = true ->
  Forall (fun p => fst p <> kNoKey) (components w1) ->
  Forall (fun p => fst p <> kNoKey) (components w2) ->
  exists r,
    SparseTupleWeightMap (Init r0 d0) w1 w2 M = Some r
    /\ default_ r = M 0 (default_ w1) (default_ w2)
    /\ (forall k v,
          In (k, v) (components r) <->
          (In k (map fst (components w1)) \/ In k (map fst (components w2)))
          /\ v = M k (value_at (default_ w1) (components w1) k)
                     (value_at (default_ w2) (components w2) k)
          /\ W_eq v (default_ r) = false)
    /\ increasing (components r) = true.
Proof.
  intros H1 H2 Hk1 Hk2. unfold SparseTupleWeightMap, DefaultValue.
  set (ret := SetDefaultValue (Init r0 d0) (M 0 (default_ w1) (default_ w2))).
  destruct (map_loop_spec M (default_ w1) (default_ w2) (Size w1 + Size w2) ret
              (it_begin w1) (it_begin w2)) as [m [Hm [Hc [Hi _]]]].
  { rewrite !remaining_begin, !Size_components. lia. }
  { now rewrite remaining_begin. }
  { now rewrite remaining_begin. }
  rewrite !remaining_begin in Hc.
  assert (Hkm : Forall (fun p => fst p <> kNoKey) m).
  { apply List.Forall_forall. intros [k v] Hin. apply Hc in Hin as [[Hin | Hin] _]; simpl;
      apply in_map_iff in Hin as [p [<- Hp]].
    - now apply (proj1 (List.Forall_forall _ _) Hk1).
    - now apply (proj1 (List.Forall_forall _ _) Hk2). }
  assert (Hcomp : components (push_all true m ret)
                  = List.filter (stored_value (default_ ret)) m).
  { rewrite push_all_filter; [reflexivity | | exact Hkm]. intros _. reflexivity. }
  exists (push_all true m ret). split; [exact Hm |].
  rewrite push_all_default, Hcomp. split; [reflexivity |]. split.
  - intros k v. rewrite filter_In, (Hc k v). unfold stored_value. simpl.
    rewrite negb_true_iff. tauto.
  - now apply increasing_filter.
Qed.

(** *** Assignment *)

(** The body of [operator=], run on two different objects, makes
    [*this] hold the default of [*w] and the pairs of [*w] pushed with
    the default check on, and leaves every other object alone. *)
Lemma operator_assign_other (st : gmap addr (SparseTupleWeight W)) this src wt ws :
  this <> src ->
  st !! this = Some wt ->
  st !! src = Some ws ->
  operator_assign st this src
  = Some (this, <[this := push_all true (components ws) (Init wt (default_ ws))]> st).
Proof.
  intros Hne Ht Hs. unfold operator_assign, assign_body.
  destruct (decide (this = src)) as [| _]; [contradiction |].
  rewrite Ht, Hs, lookup_insert_eq, lookup_insert_ne, Hs by assumption.
  rewrite for_each_fold, insert_insert_eq. reflexivity.
Qed.

(** Without the test for [w = w] the body would run [Init] on the
    object and then find nothing left to copy. *)
Lemma assign_body_self (st : gmap addr (SparseTupleWeight W)) a w :
  st !! a = Some w ->
  assign_body st a a = Some (a, <[a := Init w (default_ w)]> st).
Proof.
  intros Ha. unfold assign_body. rewrite Ha, lookup_insert_eq.
  rewrite for_each_fold, insert_insert_eq. reflexivity.
Qed.

(** C9.  Assigning a weight to itself returns the address of the
    weight and leaves the store, and so the default and the stored
    pairs of the weight, unchanged: [operator=] compares the two
    addresses before it runs [Init]. *)
Theorem operator_assign_self (st : gmap addr (SparseTupleWeight W)) a :
  operator_assign st a a = Some (a, st).
Proof.
  unfold operator_assign. destruct (decide (a = a)); [reflexivity | contradiction].
Qed.

End Facts.

End SparseTupleFacts.

Module RegisterFacts.

Import Register.

Section Facts.

Context {KeyType : Type} `{Countable KeyType}.
Context {EntryType : Type} (EntryType_ctor : EntryType).

Implicit Types (t : gmap KeyType EntryType) (key k : KeyType) (e entry : EntryType).
Implicit Types (ld : Linker (KeyType:=KeyType) (EntryType:=EntryType)).

Lemma SetEntry_absent t key entry :
  LookupEntry t key = None -> SetEntry t key entry = <[key := entry]> t.
Proof. unfold SetEntry, LookupEntry. now intros ->. Qed.

Lemma SetEntry_present t key entry e :
  LookupEntry t key = Some e -> SetEntry t key entry = t.
Proof. unfold SetEntry, LookupEntry. now intros ->. Qed.

(** After [SetEntry] the key is registered. *)
Lemma SetEntry_registered t key entry :
  exists e, LookupEntry (SetEntry t key entry) key = Some e.
Proof.
  unfold SetEntry, LookupEntry. destruct (t !! key) as [e |] eqn:Hl.
  - exists e. exact Hl.
  - exists entry. apply lookup_insert_eq.
Qed.

(** A second [SetEntry] with the same key never changes the table. *)
Lemma SetEntry_twice t key e1 e2 :
  SetEntry (SetEntry t key e1) key e2 = SetEntry t key e1.
Proof.
  destruct (SetEntry_registered t key e1) as [e He].
  now apply SetEntry_present with e.
Qed.

Lemma GetEntry_registered ld t key e :
  LookupEntry t key = Some e -> GetEntry EntryType_ctor ld t key = (e, t).
Proof. unfold GetEntry. now intros ->. Qed.

(** C2.  For a key [k] that is not registered yet, after
    [SetEntry(k, e1)] a later [SetEntry(k, e2)] leaves the table as it
    was, and [LookupEntry(k)] and [GetEntry(k)] give [e1]. *)
Theorem SetEntry_first_wins ld t k e1 e2 :
  LookupEntry t k = None ->
  SetEntry (SetEntry t k e1) k e2 = SetEntry t k e1
  /\ LookupEntry (SetEntry (SetEntry t k e1) k e2) k = Some e1
  /\ GetEntry EntryType_ctor ld (SetEntry (SetEntry t k e1) k e2) k
     = (e1, SetEntry t k e1).
Proof.
  intros Hnew.
  assert (H1 : LookupEntry (SetEntry t k e1) k = Some e1).
  { rewrite SetEntry_absent by assumption. apply lookup_insert_eq. }
  rewrite SetEntry_twice. split; [reflexivity |]. split; [exact H1 |].
  now apply GetEntry_registered.
Qed.

(** C4.  [GetEntry] is a total function: it always returns an entry.
    For a key that is not registered, when dynamic linking is compiled
    out, or [dlopen] returns a null handle, or the lookup after loading
    still misses, the entry returned is the default-constructed one. *)
Theorem GetEntry_miss ld t key :
  LookupEntry t key = None ->
  no_dynamic_linking ld = true
  \/ fst (dlopen ld (ConvertKeyToSoFilename ld key) t) = false
  \/ LookupEntry
       (run_module_initializers ld (snd (dlopen ld (ConvertKeyToSoFilename ld key) t)))
       key = None ->
  fst (GetEntry EntryType_ctor ld t key) = EntryType_ctor.
Proof.
  intros Hmiss Hload. unfold GetEntry, LoadEntryFromSharedObject. rewrite Hmiss.
  destruct (no_dynamic_linking ld); [reflexivity |].
  destruct (dlopen ld (ConvertKeyToSoFilename ld key) t) as [handle table1].
  simpl in Hload.
  destruct handle; simpl; [| reflexivity].
  destruct Hload as [Hl | [Hl | Hl]]; try discriminate.
  now rewrite Hl.
Qed.

(** C10.  [SetEntry(k, e)] does not change what is registered under
    any other key, and every pair registered before it is still found
    by [LookupEntry] with the same entry. *)
Theorem SetEntry_frame t k e :
  (forall k', k' <> k -> LookupEntry (SetEntry t k e) k' = LookupEntry t k')
  /\ (forall k' e', LookupEntry t k' = Some e' ->
                    LookupEntry (SetEntry t k e) k' = Some e').
Proof.
  unfold SetEntry, LookupEntry. split.
  - intros k' Hne. destruct (t !! k); [reflexivity |].
    now apply lookup_insert_ne.
  - intros k' e' Hl. destruct (t !! k) eqn:Hk; [exact Hl |].
    rewrite lookup_insert_ne; [exact Hl |]. congruence.
Qed.

End Facts.

End RegisterFacts.

(** * Further properties of the tuple weight *)

Module SparseTupleMore.

Import SparseTuple SparseTupleFacts.
Local Open Scope Z_scope.

Section Facts.

Context {W Delta : Type} `{SW : ScalarWeight W Delta} {KH : KeyHash}.

Implicit Types (w : SparseTupleWeight W) (it : SparseTupleWeightIterator W).
Implicit Types (p : Pair (W:=W)) (l : list (Pair (W:=W))).

(** *** The iterator *)

(** [n] calls of [Next]. *)
Definition advance (n : nat) it : SparseTupleWeightIterator W := Nat.iter n Next it.

(** An iterator in its initial state over an empty inline slot has an
    empty tail to walk; the iterators of well-formed weights are so. *)
Definition it_wf it : Prop :=
  init_ it = true -> fst (it_first it) = kNoKey -> iter_ it = [].

Lemma remaining_Next it : it_wf it -> remaining (Next it) = tl (remaining it).
Proof.
  unfold it_wf, remaining, Next. destruct (init_ it); simpl; [| reflexivity].
  intros Hwf. destruct (fst (it_first it) =? kNoKey) eqn:Hk; [| reflexivity].
  apply Z.eqb_eq in Hk. now rewrite Hwf.
Qed.

Lemma advance_init it n : init_ (advance (S n) it) = false.
Proof.
  change (advance (S n) it) with (Next (advance n it)).
  unfold Next. now destruct (init_ (advance n it)).
Qed.

Lemma advance_wf it n : it_wf it -> it_wf (advance n it).
Proof.
  destruct n as [|n]; [trivial |]. intros _ Hi.
  rewrite advance_init in Hi. discriminate.
Qed.

Lemma tl_skipn {A : Type} (l : list A) n : tl (skipn n l) = skipn (S n) l.
Proof.
  revert l. induction n as [|n IH]; intros [|x l]; simpl; try reflexivity.
  apply IH.
Qed.

Lemma remaining_advance it n :
  it_wf it -> remaining (advance n it) = skipn n (remaining it).
Proof.
  intros Hwf. induction n as [|n IH]; [reflexivity |].
  change (advance (S n) it) with (Next (advance n it)).
  rewrite remaining_Next by now apply advance_wf.
  now rewrite IH, tl_skipn.
Qed.

Lemma advance_refs it n :
  it_first (advance n it) = it_first it /\ it_rest (advance n it) = it_rest it.
Proof.
  induction n as [|n [IH1 IH2]]; [now split |].
  change (advance (S n) it) with (Next (advance n it)).
  unfold Next. now destruct (init_ (advance n it)).
Qed.

(** X1.  On a well-formed weight the iterator is a cursor over the
    stored pairs: after [n] calls of [Next] from the start, for [n] up
    to [Size()] (so that [Next] is only called while [Done] is
    false), it is [Done] exactly when [n] has reached [Size()], before
    that [Value] is the [n]-th stored pair, and [Reset] brings it back
    to the start. *)
Theorem iterator_walk w n :
  wf w ->
  (n <= Size w)%nat ->
  Done (advance n (it_begin w)) = negb (n <? Size w)%nat
  /\ ((n < Size w)%nat ->
      nth_error (components w) n = Some (Value (advance n (it_begin w))))
  /\ Reset (advance n (it_begin w)) = it_begin w.
Proof.
  intros Hwf _.
  assert (Hit : it_wf (it_begin w)) by (intros _; exact Hwf).
  pose proof (remaining_advance (it_begin w) n Hit) as Hr.
  rewrite remaining_begin in Hr. rewrite Size_components.
  split; [| split].
  - destruct (Nat.ltb_spec n (length (components w))) as [Hlt | Hge]; simpl.
    + destruct (Done (advance n (it_begin w))) eqn:Hd; [| reflexivity].
      apply Done_remaining in Hd. rewrite Hd in Hr.
      assert (Hlen : length (skipn n (components w)) = 0%nat) by now rewrite <- Hr.
      rewrite length_skipn in Hlen. lia.
    + apply Done_remaining. rewrite Hr. apply skipn_all2. lia.
  - intros Hlt.
    destruct (Done (advance n (it_begin w))) eqn:Hd.
    + apply Done_remaining in Hd. rewrite Hd in Hr.
      assert (Hlen : length (skipn n (components w)) = 0%nat) by now rewrite <- Hr.
      rewrite length_skipn in Hlen. lia.
    + rewrite (remaining_step _ Hd) in Hr.
      rewrite <- (firstn_skipn n (components w)) at 1.
      rewrite nth_error_app2 by (rewrite length_firstn; lia).
      rewrite length_firstn, Nat.min_l, Nat.sub_diag, <- Hr by lia. reflexivity.
  - destruct (advance_refs (it_begin w) n) as [H1 H2].
    unfold Reset. rewrite H1, H2. reflexivity.
Qed.

(** *** Member and Hash *)

Lemma fold_member l : forall ok : bool,
  fold_left (fun ok p => ok && W_Member (snd p)) l ok
  = ok && forallb (fun p => W_Member (snd p)) l.
Proof.
  induction l as [|p l IH]; intros ok; simpl.
  - now rewrite andb_true_r.
  - now rewrite IH, andb_assoc.
Qed.

(** X2.  [Member()] holds exactly when the default is a member and
    every stored value is a member. *)
Theorem Member_spec w :
  Member w = true <->
  W_Member (default_ w) = true
  /\ Forall (fun p => W_Member (snd p) = true) (components w).
Proof.
  unfold Member, DefaultValue. rewrite for_each_fold, fold_member. simpl.
  rewrite List.Forall_forall.
  destruct (W_Member (default_ w)); simpl.
  - rewrite forallb_forall. tauto.
  - split; [discriminate | intros [? _]; discriminate].
Qed.

Lemma wrap64_range x : 0 <= wrap64 x < 2 ^ 64.
Proof. unfold wrap64. apply Z.mod_pos_bound. lia. Qed.

Lemma fold_hash_range l : forall h,
  0 <= h < 2 ^ 64 -> 0 <= fold_left (fun h p => hash_step p h) l h < 2 ^ 64.
Proof.
  induction l as [|p l IH]; intros h Hh; simpl; [exact Hh |].
  apply IH. unfold hash_step. apply wrap64_range.
Qed.

(** X3.  [Hash()] is a 64-bit value, and it reads the stored pairs
    only: two weights with the same stored pairs have the same hash
    whatever their defaults. *)
Theorem Hash_range w :
  0 <= Hash w < 2 ^ 64
  /\ (forall w', components w' = components w -> Hash w' = Hash w).
Proof.
  split.
  - rewrite Hash_fold. apply fold_hash_range. lia.
  - intros w' Hc. now rewrite !Hash_fold, Hc.
Qed.

(** *** Construction from a range, and quantisation twice *)

(** Pushes that are elided can be left out. *)
Lemma push_all_skip l : forall w,
  push_all true l w = push_all true (List.filter (stored_value (default_ w)) l) w.
Proof.
  induction l as [|p l IH]; intros w; simpl; [reflexivity |].
  unfold push_all in *. simpl. unfold stored_value at 1.
  destruct (W_eq (snd p) (default_ w)) eqn:He; simpl.
  - rewrite (Push_elided w p He). apply IH.
  - rewrite IH, Push_default. reflexivity.
Qed.

(** X4.  The constructor from a range of pairs with keys other than
    [kNoKey] gives a weight with default [W::Zero()] that stores, in
    the order given, the pairs whose value is not [W::Zero()]; pairs
    with value [W::Zero()] are dropped. *)
Theorem ctor_range_components l :
  Forall (fun p => fst p <> kNoKey) l ->
  default_ (ctor_range l) = W_Zero
  /\ components (ctor_range l) = List.filter (stored_value W_Zero) l
  /\ (Size (ctor_range l) <= length l)%nat.
Proof.
  intros Hk. unfold ctor_range, Init0.
  change (fold_left (fun w p => Push w p true) l (Init unconstructed W_Zero))
    with (push_all true l (Init unconstructed W_Zero)).
  rewrite push_all_default, Size_components, push_all_filter; auto using Init_wf.
  simpl. split; [reflexivity |]. split; [reflexivity |].
  apply filter_length_le.
Qed.

(** X5.  When the scalar [Quantize] is idempotent, so is [Quantize] on
    weights whose stored keys are not [kNoKey]: quantising the result
    again gives the same weight. *)
Theorem Quantize_idempotent w delta :
  (forall v, W_Quantize (W_Quantize v delta) delta = W_Quantize v delta) ->
  Forall (fun p => fst p <> kNoKey) (components w) ->
  Quantize (Quantize w delta) delta = Quantize w delta.
Proof.
  intros Hq Hk.
  assert (Hc : components (Quantize w delta)
               = List.filter (stored_value W_Zero)
                   (map (quantize_pair delta) (components w))).
  { rewrite Quantize_push, push_all_filter.
    - reflexivity.
    - apply Init_wf.
    - rewrite Forall_map. exact Hk. }
  rewrite (Quantize_push (Quantize w delta)), Hc.
  rewrite (Quantize_push w), (push_all_skip (map _ (components w))). simpl.
  f_equal. clear Hc Hk.
  induction (components w) as [|p l IH]; simpl; [reflexivity |].
  destruct (stored_value W_Zero (quantize_pair delta p)); simpl.
  - rewrite IH. f_equal.
    unfold quantize_pair. simpl. now rewrite Hq.
  - apply IH.
Qed.

(** *** Termination of the two walks on arbitrary weights *)

Lemma eq_loop_total d1 d2 fuel : forall it1 it2,
  (length (remaining it1) + length (remaining it2) <= fuel)%nat ->
  exists b, eq_loop fuel d1 d2 it1 it2 = Some b.
Proof.
  induction fuel as [|fuel IH]; intros it1 it2 Hlen;
    destruct (iter_cases it1) as [[Hd1 Hr1] | [Hd1 Hr1]];
    destruct (iter_cases it2) as [[Hd2 Hr2] | [Hd2 Hr2]];
    rewrite Hr1, Hr2 in Hlen; simpl in Hlen; try lia;
    cbn [eq_loop]; rewrite Hd1, Hd2; cbn [negb orb]; try (now exists true);
    rewrite ?Z.eqb_refl.
  all: repeat match goal with
              | |- context [if ?c then _ else _] => destruct c
              end;
    try (now exists false); apply IH; rewrite ?Hr1, ?Hr2; simpl; lia.
Qed.

(** X6.  [operator==] returns on every pair of weights, whatever the
    order of their keys: each round of its loop moves at least one of
    the two iterators, so [Size(w1) + Size(w2)] rounds are enough. *)
Theorem operator_eq_total w1 w2 : exists b, operator_eq w1 w2 = Some b.
Proof.
  unfold operator_eq.
  destruct (negb (W_eq (DefaultValue w1) (DefaultValue w2))); [now exists false |].
  apply eq_loop_total. rewrite !remaining_begin, !Size_components. lia.
Qed.

Lemma eq_loop_refl d fuel :
  (forall a : W, W_eq a a = true) ->
  forall it, (length (remaining it) <= fuel)%nat ->
             eq_loop fuel d d it it = Some true.
Proof.
  intros Hrefl. induction fuel as [|fuel IH]; intros it Hlen;
    destruct (iter_cases it) as [[Hd Hr] | [Hd Hr]];
    rewrite Hr in Hlen; simpl in Hlen; try lia;
    cbn [eq_loop]; rewrite Hd; cbn [negb orb]; try reflexivity.
  rewrite Z.eqb_refl, Hrefl. cbn [negb]. apply IH. lia.
Qed.

(** X7.  When the scalar [operator==] is reflexive, [w == w] holds for
    every weight, also one whose keys are not in increasing order. *)
Theorem operator_eq_refl_any w :
  (forall a : W, W_eq a a = true) -> operator_eq w w = Some true.
Proof.
  intros Hrefl. unfold operator_eq. rewrite Hrefl. cbn [negb].
  apply eq_loop_refl; [exact Hrefl |].
  rewrite remaining_begin, Size_components. lia.
Qed.

Lemma map_loop_total M d1 d2 fuel : forall ret it1 it2,
  (length (remaining it1) + length (remaining it2) <= fuel)%nat ->
  exists m, map_loop fuel M d1 d2 ret it1 it2 = Some (push_all true m ret)
            /\ (length m <= length (remaining it1) + length (remaining it2))%nat.
Proof.
  induction fuel as [|fuel IH]; intros ret it1 it2 Hlen;
    destruct (iter_cases it1) as [[Hd1 Hr1] | [Hd1 Hr1]];
    destruct (iter_cases it2) as [[Hd2 Hr2] | [Hd2 Hr2]];
    rewrite Hr1, Hr2 in Hlen |- *; simpl in Hlen; try lia;
    cbn [map_loop]; rewrite Hd1, Hd2; cbn [negb orb];
    try (exists []; split; [reflexivity | simpl; lia]);
    rewrite ?Z.eqb_refl.
  all: repeat match goal with
              | |- context [if ?c then _ else _] => destruct c
              end;
    match goal with
    | IH : _ |- context [map_loop _ _ _ _ (PushKV ?r ?k ?v true) ?i1 ?i2] =>
        destruct (IH (PushKV r k v true) i1 i2) as [m [Hm Hl]];
        [rewrite ?Hr1, ?Hr2; simpl; lia |];
        exists ((k, v) :: m); split; [exact Hm |];
        rewrite ?Hr1, ?Hr2 in Hl; simpl in Hl |- *; lia
    end.
Qed.

(** X8.  Called with [ret] pointing to an object that is neither
    [w1] nor [w2], [SparseTupleWeightMap] returns on every pair of
    weights, whatever the order of their keys.  It does not clear
    [*ret]: the result is what [*ret] held, with the new default,
    after at most [Size(w1) + Size(w2)] pushes. *)
Theorem SparseTupleWeightMap_total (M : K -> W -> W -> W) ret w1 w2 :
  exists m,
    SparseTupleWeightMap ret w1 w2 M
    = Some (push_all true m
              (SetDefaultValue ret (M 0 (default_ w1) (default_ w2))))
    /\ (length m <= Size w1 + Size w2)%nat.
Proof.
  unfold SparseTupleWeightMap, DefaultValue.
  destruct (map_loop_total M (default_ w1) (default_ w2) (Size w1 + Size w2)
              (SetDefaultValue ret (M 0 (default_ w1) (default_ w2)))
              (it_begin w1) (it_begin w2)) as [m [Hm Hl]].
  { rewrite !remaining_begin, !Size_components. lia. }
  exists m. split; [exact Hm |].
  now rewrite !remaining_begin, <- !Size_components in Hl.
Qed.

(** Swapping the two sides of the walk, for a mapper that does not
    care about the order of its two weights. *)
Lemma map_loop_comm M d1 d2 fuel :
  (forall k a b, M k a b = M k b a) ->
  forall ret it1 it2,
    map_loop fuel M d1 d2 ret it1 it2 = map_loop fuel M d2 d1 ret it2 it1.
Proof.
  intros Hcomm. induction fuel as [|fuel IH]; intros ret it1 it2;
    cbn [map_loop]; rewrite (orb_comm (negb (Done it2))).
  - reflexivity.
  - destruct (Done it1) eqn:Hd1, (Done it2) eqn:Hd2; cbn [negb orb]; try reflexivity.
    + rewrite !Z.eqb_refl, (Hcomm _ d1). apply IH.
    + rewrite !Z.eqb_refl, (Hcomm _ d2). apply IH.
    + rewrite (Z.eqb_sym (fst (Value it2))).
      destruct (fst (Value it1) =? fst (Value it2)) eqn:Hk.
      * apply Z.eqb_eq in Hk. rewrite <- Hk, (Hcomm _ (snd (Value it2))). apply IH.
      * apply Z.eqb_neq in Hk.
        destruct (Z.ltb_spec (fst (Value it1)) (fst (Value it2))) as [Hlt | Hge];
          destruct (Z.ltb_spec (fst (Value it2)) (fst (Value it1))) as [Hlt' | Hge'];
          try lia.
        -- rewrite (Hcomm _ d2). apply IH.
        -- rewrite (Hcomm _ d1). apply IH.
Qed.

(** X9.  For a mapper that is symmetric in its two weights,
    [SparseTupleWeightMap] gives the same result with [w1] and [w2]
    exchanged, on all weights. *)
Theorem SparseTupleWeightMap_comm (M : K -> W -> W -> W) ret w1 w2 :
  (forall k a b, M k a b = M k b a) ->
  SparseTupleWeightMap ret w1 w2 M = SparseTupleWeightMap ret w2 w1 M.
Proof.
  intros Hcomm. unfold SparseTupleWeightMap.
  rewrite (Hcomm 0 (DefaultValue w2)), (Nat.add_comm (Size w2)).
  now apply map_loop_comm.
Qed.

(** *** Copies are equal to their originals *)

(** Dropping the stored pairs whose value equals the default does not
    change the value of any key, up to the scalar [operator==]. *)
Lemma value_at_filter `{!ScalarWeightEq W Delta} d l : forall k,
  increasing l = true ->
  W_eq (value_at d l k) (value_at d (List.filter (stored_value d) l) k) = true.
Proof.
  induction l as [|p l IH]; intros k Hi; simpl; [apply W_eq_refl |].
  assert (Hl : increasing l = true) by (eapply increasing_from_tail, Hi).
  unfold stored_value at 1. destruct (W_eq (snd p) d) eqn:He; simpl.
  - destruct (fst p =? k) eqn:Hk; [| now apply IH].
    apply Z.eqb_eq in Hk. subst k.
    rewrite (value_at_below d _ (fst p) (fst p)); [exact He | | lia].
    now apply increasing_from_filter.
  - destruct (fst p =? k); [apply W_eq_refl | now apply IH].
Qed.

(** A weight is equal to the weight rebuilt from its stored pairs by
    checked pushes, which is what the copy constructor, [operator=]
    and [operator>>] do. *)
Lemma operator_eq_rebuilt `{!ScalarWeightEq W Delta} w t :
  increasing (components w) = true ->
  Forall (fun p => fst p <> kNoKey) (components w) ->
  operator_eq w (push_all true (components w) (Init t (default_ w))) = Some true.
Proof.
  intros Hi Hk.
  set (r := push_all true (components w) (Init t (default_ w))).
  assert (Hd : default_ r = default_ w) by (unfold r; now rewrite push_all_default).
  assert (Hc : components r = List.filter (stored_value (default_ w)) (components w)).
  { unfold r. rewrite push_all_filter; auto using Init_wf. }
  destruct (operator_eq_spec w r Hi) as [b [Hb Hiff]].
  { rewrite Hc. now apply increasing_filter. }
  rewrite Hb. f_equal. apply Hiff. rewrite Hd, Hc. split; [apply W_eq_refl |].
  intros k. now apply value_at_filter.
Qed.

(** X10.  A weight with strictly increasing keys, none of them
    [kNoKey], is equal ([operator==]) to its copy, also when it stores
    values equal to its default, which the copy leaves out. *)
Theorem ctor_copy_equal `{!ScalarWeightEq W Delta} w :
  increasing (components w) = true ->
  Forall (fun p => fst p <> kNoKey) (components w) ->
  operator_eq w (ctor_copy w) = Some true.
Proof. intros Hi Hk. rewrite ctor_copy_push. now apply operator_eq_rebuilt. Qed.

(** X11.  For a weight with strictly increasing keys, none of them
    [kNoKey], reading back what [operator<<] wrote succeeds and gives
    a weight equal ([operator==]) to the one written, also when it
    stores values equal to its default. *)
Theorem read_write_equal `{!ScalarWeightEq W Delta} w target :
  increasing (components w) = true ->
  Forall (fun p => fst p <> kNoKey) (components w) ->
  exists r, operator_in (operator_out w) target = Some r
            /\ operator_eq w r = Some true.
Proof.
  intros Hi Hk. eexists. split; [apply operator_in_out |].
  now apply operator_eq_rebuilt.
Qed.

(** X12.  Assigning between two different objects leaves every other
    object, the source included, as it was, and makes the target a
    weight with the source's default that is equal ([operator==]) to
    the source (for a source with strictly increasing keys, none of
    them [kNoKey]); the address returned is the target's. *)
Theorem operator_assign_equal `{!ScalarWeightEq W Delta}
    (st : gmap addr (SparseTupleWeight W)) this src wt ws :
  this <> src ->
  st !! this = Some wt ->
  st !! src = Some ws ->
  increasing (components ws) = true ->
  Forall (fun p => fst p <> kNoKey) (components ws) ->
  exists st' wt',
    operator_assign st this src = Some (this, st')
    /\ st' !! this = Some wt'
    /\ default_ wt' = default_ ws
    /\ operator_eq ws wt' = Some true
    /\ (forall a, a <> this -> st' !! a = st !! a).
Proof.
  intros Hne Ht Hs Hi Hk.
  rewrite (operator_assign_other st this src wt ws Hne Ht Hs).
  eexists _, _. split; [reflexivity |]. split; [apply lookup_insert_eq |].
  split; [now rewrite push_all_default |]. split; [now apply operator_eq_rebuilt |].
  intros a Ha. now apply lookup_insert_ne.
Qed.

(** *** Size after any run of checked pushes *)

(** X20.  Starting from a freshly initialised weight with default
    [d], after any run of checked pushes with keys other than
    [kNoKey], [Size()] is the number of pushes whose value differs
    from [d], and the default is still [d]. *)
Theorem Size_counts_stored l w0 d :
  Forall (fun p => fst p <> kNoKey) l ->
  Size (push_all true l (Init w0 d)) = length (List.filter (stored_value d) l)
  /\ default_ (push_all true l (Init w0 d)) = d.
Proof.
  intros Hk. split.
  - rewrite Size_components, push_all_filter by auto using Init_wf. reflexivity.
  - now rewrite push_all_default.
Qed.

(** *** Equality and hash on weights in canonical form *)

(** Weights that agree on every key, have increasing keys and store no
    value equal to the default store the same pairs, when the scalar
    [operator==] is equality. *)
Lemma agree_canonical (d : W) l1 :
  (forall a b : W, W_eq a b = true <-> a = b) ->
  forall l2,
    increasing l1 = true -> increasing l2 = true ->
    Forall (fun p => W_eq (snd p) d = false) l1 ->
    Forall (fun p => W_eq (snd p) d = false) l2 ->
    agree d l1 d l2 -> l1 = l2.
Proof.
  intros Heq.
  assert (Hrefl : W_eq d d = true) by now apply Heq.
  induction l1 as [|p1 l1 IH]; intros [|p2 l2] Hi1 Hi2 Hs1 Hs2 Ha.
  - reflexivity.
  - exfalso. inversion Hs2 as [|? ? Hp _]; subst.
    specialize (Ha (fst p2)). simpl in Ha. rewrite Z.eqb_refl in Ha.
    apply Heq in Ha. subst d. congruence.
  - exfalso. inversion Hs1 as [|? ? Hp _]; subst.
    specialize (Ha (fst p1)). simpl in Ha. rewrite Z.eqb_refl in Ha.
    congruence.
  - inversion Hs1 as [|? ? Hp1 Hs1']; inversion Hs2 as [|? ? Hp2 Hs2']; subst.
    simpl in Hi1, Hi2.
    destruct (Z.lt_trichotomy (fst p1) (fst p2)) as [Hlt | [Hk | Hgt]].
    + exfalso. specialize (Ha (fst p1)).
      rewrite value_at_cons_eq in Ha.
      rewrite (value_at_below d (p2 :: l2) (fst p1) (fst p1)) in Ha; [congruence | | lia].
      now apply increasing_from_cons.
    + pose proof (proj1 (agree_both d d p1 p2 l1 l2 Hrefl Hk Hi1 Hi2) Ha) as [Hv Ha'].
      apply Heq in Hv. f_equal.
      * destruct p1, p2; simpl in *; congruence.
      * apply IH; try assumption; eapply increasing_from_tail; eassumption.
    + exfalso. specialize (Ha (fst p2)).
      rewrite value_at_cons_eq in Ha.
      rewrite (value_at_below d (p1 :: l1) (fst p2) (fst p2)) in Ha; [| | lia].
      * apply Heq in Ha. subst d. congruence.
      * now apply increasing_from_cons.
Qed.

(** X21.  When the scalar [operator==] is equality, two weights with
    strictly increasing keys that store no value equal to their
    default and are equal ([operator==]) have the same default, the
    same stored pairs and the same hash. *)
Theorem operator_eq_canonical w1 w2 :
  (forall a b : W, W_eq a b = true <-> a = b) ->
  increasing (components w1) = true ->
  increasing (components w2) = true ->
  Forall (fun p => W_eq (snd p) (default_ w1) = false) (components w1) ->
  Forall (fun p => W_eq (snd p) (default_ w2) = false) (components w2) ->
  operator_eq w1 w2 = Some true ->
  default_ w1 = default_ w2
  /\ components w1 = components w2
  /\ Hash w1 = Hash w2.
Proof.
  intros Heq Hi1 Hi2 Hs1 Hs2 He.
  destruct (operator_eq_spec w1 w2 Hi1 Hi2) as [b [Hb Hiff]].
  rewrite Hb in He. inversion He; subst b.
  destruct (proj1 Hiff eq_refl) as [Hd Ha].
  apply Heq in Hd. rewrite <- Hd in Hs2, Ha.
  assert (Hc : components w1 = components w2)
    by (eapply agree_canonical; eassumption).
  split; [exact Hd |]. split; [exact Hc |].
  now rewrite !Hash_fold, Hc.
Qed.

End Facts.

End SparseTupleMore.

(** * Further properties of the register *)

Module RegisterMore.

Import Register RegisterFacts.

Section Facts.

Context {KeyType : Type} `{Countable KeyType}.
Context {EntryType : Type} (EntryType_ctor : EntryType).

Implicit Types (t : gmap KeyType EntryType) (key k : KeyType) (e entry : EntryType).
Implicit Types (ld : Linker (KeyType:=KeyType) (EntryType:=EntryType)).
Implicit Types (l : list (KeyType * EntryType)).

(** A run of registerers, in the order in which they are constructed. *)
Definition register_all l t : gmap KeyType EntryType :=
  fold_left (fun t p => GenericRegisterer t (fst p) (snd p)) l t.

(** The entry of the first pair of [l] with key [k]. *)
Fixpoint first_entry k l : option EntryType :=
  match l with
  | [] => None
  | p :: l' => if decide (fst p = k) then Some (snd p) else first_entry k l'
  end.

Lemma lookup_SetEntry t k e k' :
  LookupEntry (SetEntry t k e) k'
  = match LookupEntry t k' with
    | Some x => Some x
    | None => if decide (k = k') then Some e else None
    end.
Proof.
  unfold SetEntry, LookupEntry.
  destruct (t !! k) as [x |] eqn:Hk.
  - destruct (t !! k') as [x' |] eqn:Hk'; [reflexivity |].
    destruct (decide (k = k')) as [-> | _]; [congruence | reflexivity].
  - destruct (decide (k = k')) as [<- | Hne].
    + now rewrite lookup_insert_eq, Hk.
    + rewrite lookup_insert_ne by assumption. now destruct (t !! k').
Qed.

(** X13.  Registrations under different keys commute: the table does
    not depend on which of the two [SetEntry] calls ran first. *)
Theorem SetEntry_commute t k1 e1 k2 e2 :
  k1 <> k2 ->
  SetEntry (SetEntry t k1 e1) k2 e2 = SetEntry (SetEntry t k2 e2) k1 e1.
Proof.
  intros Hne. apply map_eq. intros k.
  change ((SetEntry (SetEntry t k1 e1) k2 e2) !! k)
    with (LookupEntry (SetEntry (SetEntry t k1 e1) k2 e2) k).
  change ((SetEntry (SetEntry t k2 e2) k1 e1) !! k)
    with (LookupEntry (SetEntry (SetEntry t k2 e2) k1 e1) k).
  rewrite !lookup_SetEntry.
  destruct (LookupEntry t k); [reflexivity |].
  destruct (decide (k1 = k)), (decide (k2 = k)); congruence.
Qed.

(** X14.  After a run of registerers, the entry found under a key is
    the one the table held before the run if there was one, and else
    the entry of the first registerer of the run with that key; later
    registerers with the same key are ignored. *)
Theorem register_all_lookup l : forall t k,
  LookupEntry (register_all l t) k
  = match LookupEntry t k with
    | Some x => Some x
    | None => first_entry k l
    end.
Proof.
  induction l as [|p l IH]; intros t k; simpl.
  - now destruct (LookupEntry t k).
  - unfold register_all in *. simpl. unfold GenericRegisterer at 2.
    rewrite IH, lookup_SetEntry.
    destruct (LookupEntry t k); [reflexivity |].
    now destruct (decide (fst p = k)).
Qed.

(** X15.  Once a key has been passed to [SetEntry], [GetEntry] finds
    it in the table (the entry registered first) and never tries to
    load a shared object: the table comes back as it was. *)
Theorem GetEntry_after_SetEntry ld t k e :
  GetEntry EntryType_ctor ld (SetEntry t k e) k
  = (match LookupEntry t k with Some x => x | None => e end, SetEntry t k e).
Proof.
  unfold GetEntry. rewrite lookup_SetEntry.
  destruct (LookupEntry t k); [reflexivity |].
  destruct (decide (k = k)); [reflexivity | contradiction].
Qed.

(** X16.  When a key is not registered, the shared object loads and
    its initialisers register the key, [GetEntry] returns the entry
    they registered, and a second [GetEntry] on the resulting table
    returns it again without loading. *)
Theorem GetEntry_loaded ld t key table1 e :
  LookupEntry t key = None ->
  no_dynamic_linking ld = false ->
  dlopen ld (ConvertKeyToSoFilename ld key) t = (true, table1) ->
  LookupEntry (run_module_initializers ld table1) key = Some e ->
  GetEntry EntryType_ctor ld t key = (e, run_module_initializers ld table1)
  /\ GetEntry EntryType_ctor ld (run_module_initializers ld table1) key
     = (e, run_module_initializers ld table1).
Proof.
  intros Hmiss Hdyn Hopen Hreg. split.
  - unfold GetEntry, LoadEntryFromSharedObject.
    rewrite Hmiss, Hdyn, Hopen. simpl. now rewrite Hreg.
  - unfold GetEntry. now rewrite Hreg.
Qed.

End Facts.

End RegisterMore.

(** * Properties of the command-line tools *)

Module ToolsFacts.

Import Tools.

Section Facts.

Context {FstClass ArcType : Type}.

Implicit Types (sc : Script FstClass ArcType) (argv : list string).

(** The FSTs handed to [Write], with the name given. *)
Definition writes (out : list (Output FstClass)) : list (FstClass * string) :=
  flat_map (fun o => match o with
                     | ShowUsage _ => []
                     | Written f name _ => [(f, name)]
                     end) out.

(** X17.  [fstconvert] exits with 0 or 1.  It exits with 0 exactly
    when it has at most two file arguments, the input is read, and
    the input has the requested type or is converted; it then hands
    one FST to [Write] under the output name and does not look at
    what [Write] returns.  When it exits with 1 nothing is written. *)
Theorem fstconvert_outcome sc flag argv :
  (fst (fstconvert_main sc flag argv) = 0%Z
   \/ fst (fstconvert_main sc flag argv) = 1%Z)
  /\ (fst (fstconvert_main sc flag argv) = 0%Z <->
      (length argv <= 3)%nat
      /\ exists ifst, Read sc (in_name argv) = Some ifst
                      /\ (FstType sc ifst = flag
                          \/ exists ofst, Convert sc ifst flag = Some ofst))
  /\ (fst (fstconvert_main sc flag argv) = 0%Z ->
      exists f, writes (snd (fstconvert_main sc flag argv)) = [(f, out_name argv)])
  /\ (fst (fstconvert_main sc flag argv) = 1%Z ->
      writes (snd (fstconvert_main sc flag argv)) = []).
Proof.
  unfold fstconvert_main.
  destruct (Nat.ltb_spec 3 (length argv)) as [Hlen | Hlen]; simpl.
  { split; [now right |]. split; [| split]; try discriminate; try reflexivity.
    split; [discriminate | intros [? _]; lia]. }
  destruct (Read sc (in_name argv)) as [ifst |]; simpl.
  2:{ split; [now right |]. split; [| split]; try discriminate; try reflexivity.
      split; [discriminate | intros [_ [? [? _]]]; discriminate]. }
  destruct (String.eqb_spec (FstType sc ifst) flag) as [Heq | Hneq]; simpl.
  { split; [now left |]. split; [| split]; try discriminate.
    - split; [| reflexivity]. intros _. split; [exact Hlen |]. exists ifst. auto.
    - intros _. now exists ifst. }
  destruct (Convert sc ifst flag) as [ofst |] eqn:Hconv; simpl.
  - split; [now left |]. split; [| split]; try discriminate.
    + split; [| reflexivity]. intros _. split; [exact Hlen |].
      exists ifst. split; [reflexivity |]. right. now exists ofst.
    + intros _. now exists ofst.
  - split; [now right |]. split; [| split]; try discriminate; try reflexivity.
    split; [discriminate |]. intros [_ [f [Hf [Ht | [o Ho]]]]].
    + inversion Hf; subst. contradiction.
    + inversion Hf; subst. congruence.
Qed.

(** X18.  When the input already has the requested type, [fstconvert]
    writes the FST it read, whatever [Convert] would have done. *)
Theorem fstconvert_passthrough sc flag argv ifst :
  (length argv <= 3)%nat ->
  Read sc (in_name argv) = Some ifst ->
  FstType sc ifst = flag ->
  fst (fstconvert_main sc flag argv) = 0%Z
  /\ writes (snd (fstconvert_main sc flag argv)) = [(ifst, out_name argv)].
Proof.
  intros Hlen Hread Htype. unfold fstconvert_main.
  destruct (Nat.ltb_spec 3 (length argv)) as [Hlt | _]; [lia |].
  rewrite Hread, Htype, String.eqb_refl. simpl. now split.
Qed.

(** X19.  [fstreverse] exits with 0 exactly when it has at most two
    file arguments and the input is read; it then hands to [Write],
    under the output name, the result of [Reverse] on the input and a
    fresh vector FST of the input's arc type.  Otherwise it exits
    with 1 and writes nothing. *)
Theorem fstreverse_outcome sc flag argv :
  (fst (fstreverse_main sc flag argv) = 0%Z <->
   (length argv <= 3)%nat /\ exists ifst, Read sc (in_name argv) = Some ifst)
  /\ (forall ifst, (length argv <= 3)%nat -> Read sc (in_name argv) = Some ifst ->
       writes (snd (fstreverse_main sc flag argv))
       = [(Reverse sc ifst (VectorFstClass sc (ArcTypeOf sc ifst)) flag, out_name argv)])
  /\ (fst (fstreverse_main sc flag argv) <> 0%Z ->
      fst (fstreverse_main sc flag argv) = 1%Z
      /\ writes (snd (fstreverse_main sc flag argv)) = []).
Proof.
  unfold fstreverse_main.
  destruct (Nat.ltb_spec 3 (length argv)) as [Hlen | Hlen]; simpl.
  { split; [| split].
    - split; [discriminate | intros [? _]; lia].
    - intros ? ?. lia.
    - now split. }
  destruct (Read sc (in_name argv)) as [ifst |]; simpl.
  - split; [| split].
    + split; [| reflexivity]. intros _. split; [exact Hlen |]. now exists ifst.
    + intros f _ Hf. now inversion Hf.
    + intros Hn. contradiction.
  - split; [| split].
    + split; [discriminate | intros [_ [? ?]]; discriminate].
    + intros ? _ ?. discriminate.
    + now split.
Qed.

End Facts.

End ToolsFacts.

(** * The theorems on concrete inputs *)

Module Instances.

Import SparseTuple SparseTupleFacts Register RegisterFacts IntWeight.
Local Open Scope Z_scope.

#[export] Instance int_weight_eq : ScalarWeightEq Z Z.
Proof.
  split; simpl.
  - apply Z.eqb_refl.
  - apply Z.eqb_sym.
  - intros a b c Hab Hbc. apply Z.eqb_eq in Hab, Hbc. apply Z.eqb_eq. congruence.
Qed.

(** The weights of the spec's example: [{default = 0, (2, 5)}] and
    [{default = 0, (2, 3), (4, 1)}]. *)
Definition weightA : SparseTupleWeight Z := ctor_pair 2 5.
Definition weightB : SparseTupleWeight Z := ctor_range [(2, 3); (4, 1)].

(** A weight holding a stored value equal to its default, built with
    the default check switched off. *)
Definition forced : SparseTupleWeight Z := Push (ctor_weight 5) (1, 5) false.

(** [weightA] with a stored zero appended, and with a stored zero in
    front: [{default = 0, (2, 5), (4, 0)}] and [{default = 0, (1, 0), (2, 5)}]. *)
Definition paddedA : SparseTupleWeight Z := Push weightA (4, 0) false.
Definition paddedA' : SparseTupleWeight Z :=
  Push (Push ctor_default (1, 0) false) (2, 5) true.

(** [{default = 1, (2, 5)}] *)
Definition weightC : SparseTupleWeight Z := PushKV (ctor_weight 1) 2 5 true.

(** A register keyed by strings whose shared objects never load. *)
Definition no_loader : Linker (KeyType:=string) (EntryType:=nat) :=
  {| no_dynamic_linking := false;
     ConvertKeyToSoFilename := fun key => String.append key "-fst.so";
     dlopen := fun _ table => (false, table);
     run_module_initializers := fun table => table |}.

(** Combining the example weights with the additive mapper. *)
Example combine_example :
  SparseTupleWeightMap ctor_default weightA weightB plus_mapper
  = Some {| default_ := 0; first_ := (2, 8); rest_ := [(4, 1)] |}.
Proof. reflexivity. Qed.

(** *** C1 *)

(** C1 as stated fails on a weight that stores a value equal to its
    default: the pair is written, and elided when read back. *)
Lemma read_write_elides :
  ~ (exists r, operator_in (operator_out forced) ctor_default = Some r
               /\ default_ r = default_ forced
               /\ components r = components forced).
Proof.
  intros [r [Hr [_ Hc]]]. vm_compute in Hr. inversion Hr; subst.
  vm_compute in Hc. discriminate.
Qed.

Lemma read_write_roundtrip_witness :
  exists r, operator_in (operator_out weightB) weightA = Some r
            /\ default_ r = default_ weightB
            /\ components r = components weightB
            /\ operator_out r = operator_out weightB.
Proof.
  apply (read_write_roundtrip weightB weightA).
  repeat constructor.
Defined.

(** *** C3 *)

(** C3.  [Quantize] on [{default = 1, (2, 5)}] with [delta = 2]: the
    stored value is quantised, 5 to 6, and the default of the result
    is 0, that of a default-constructed weight, where the weight
    quantised has default 1.  In the same way [Quantize] of [One()],
    which stores nothing, is [Zero()]. *)
Lemma Quantize_loses_default :
  default_ weightC = 1
  /\ components weightC = [(2, 5)]
  /\ Quantize weightC 2 = {| default_ := 0; first_ := (2, 6); rest_ := [] |}
  /\ Quantize (One : SparseTupleWeight Z) 2 = Zero.
Proof. repeat split. Qed.

Lemma Quantize_components_witness :
  components (Quantize weightB 2)
  = List.filter (stored_value (default_ (Quantize weightB 2)))
      (map (quantize_pair 2) (components weightB)).
Proof.
  apply (Quantize_components weightB 2).
  repeat constructor; discriminate.
Defined.

(** *** C5 *)

(** C5 as stated fails for a mapper that looks at the key: the default
    is computed at key 0, not at [kNoKey]. *)
Lemma Map_default_at_zero :
  ~ (exists r, SparseTupleWeightMap ctor_default weightA weightB keyed_mapper = Some r
               /\ default_ r = keyed_mapper kNoKey (default_ weightA) (default_ weightB)).
Proof.
  intros [r [Hr Hd]]. vm_compute in Hr. inversion Hr; subst.
  vm_compute in Hd. discriminate.
Qed.

Lemma SparseTupleWeightMap_spec_witness :
  exists r,
    SparseTupleWeightMap (Init unconstructed W_Zero) weightA weightB plus_mapper = Some r
    /\ default_ r = plus_mapper 0 (default_ weightA) (default_ weightB)
    /\ (forall k v,
          In (k, v) (components r) <->
          (In k (map fst (components weightA)) \/ In k (map fst (components weightB)))
          /\ v = plus_mapper k (value_at (default_ weightA) (components weightA) k)
                   (value_at (default_ weightB) (components weightB) k)
          /\ W_eq v (default_ r) = false)
    /\ increasing (components r) = true.
Proof.
  apply (SparseTupleWeightMap_spec plus_mapper unconstructed W_Zero weightA weightB).
  - reflexivity.
  - reflexivity.
  - repeat constructor; discriminate.
  - repeat constructor; discriminate.
Defined.

(** *** C6 *)

(** Three weights that store different pairs and give every key the
    same value. *)
Example padded_weights_equal :
  components weightA = [(2, 5)]
  /\ components paddedA = [(2, 5); (4, 0)]
  /\ components paddedA' = [(1, 0); (2, 5)]
  /\ operator_eq weightA paddedA = Some true
  /\ operator_eq paddedA paddedA' = Some true
  /\ operator_eq weightA weightB = Some false.
Proof. repeat split. Qed.

Lemma operator_eq_equivalence_witness :
  (exists b, operator_eq weightA paddedA = Some b)
  /\ operator_eq weightA weightA = Some true
  /\ operator_eq weightA paddedA = operator_eq paddedA weightA
  /\ (operator_eq weightA paddedA = Some true -> operator_eq paddedA paddedA' = Some true ->
      operator_eq weightA paddedA' = Some true)
  /\ (operator_eq weightA paddedA = Some true <->
      W_eq (default_ weightA) (default_ paddedA) = true
      /\ agree (default_ weightA) (components weightA) (default_ paddedA) (components paddedA)).
Proof.
  apply (operator_eq_equivalence weightA paddedA paddedA'); reflexivity.
Defined.

(** *** C7 *)

(** What the reservation of [kNoKey] is for: a pair pushed with that
    key into an empty weight lands in the inline slot, which still
    counts as empty, and the next push overwrites it. *)
Lemma Size_reserved_key :
  increasing [(-1, 5); (0, 6)] = true
  /\ Forall (fun p : Pair => W_eq (snd p) 0 = false) [(-1, 5); (0, 6)]
  /\ Size (push_all true [(-1, 5); (0, 6)] (Init unconstructed 0))
     <> length [(-1, 5); (0, 6)].
Proof.
  split; [reflexivity |]. split; [repeat constructor |].
  vm_compute. discriminate.
Qed.

Lemma Size_counts_pushes_witness :
  Size (push_all true [(2, 5); (4, 1)] (Init unconstructed 0)) = length [(2, 5); (4, 1)].
Proof.
  apply (Size_counts_pushes (W:=Z) [(2, 5); (4, 1)] unconstructed 0).
  - repeat constructor; discriminate.
  - repeat constructor.
Defined.

(** *** C8 *)

(** C8 as stated fails on a weight that stores a value equal to its
    default: the copy constructor elides the pair. *)
Lemma Hash_copy_elides : Hash (ctor_copy forced) <> Hash forced.
Proof. vm_compute. discriminate. Qed.

Lemma Hash_copy_witness :
  default_ (ctor_copy weightB) = default_ weightB
  /\ components (ctor_copy weightB) = components weightB
  /\ Hash (ctor_copy weightB) = Hash weightB
  /\ Hash weightB = fold_left (fun h p => hash_step p h) (components weightB) 0.
Proof.
  apply (Hash_copy weightB).
  repeat constructor.
Defined.

(** *** C2, C4, C10 *)

Lemma SetEntry_first_wins_witness :
  SetEntry (SetEntry ∅ "vector"%string 1%nat) "vector"%string 2%nat
  = SetEntry ∅ "vector"%string 1%nat
  /\ LookupEntry (SetEntry (SetEntry ∅ "vector"%string 1%nat) "vector"%string 2%nat)
       "vector"%string = Some 1%nat
  /\ GetEntry 0%nat no_loader
       (SetEntry (SetEntry ∅ "vector"%string 1%nat) "vector"%string 2%nat) "vector"%string
     = (1%nat, SetEntry ∅ "vector"%string 1%nat).
Proof.
  apply (SetEntry_first_wins 0%nat no_loader ∅ "vector"%string 1%nat 2%nat).
  apply lookup_empty.
Defined.

Lemma GetEntry_miss_witness :
  fst (GetEntry 0%nat no_loader (SetEntry ∅ "vector"%string 1%nat) "const"%string) = 0%nat.
Proof.
  apply (GetEntry_miss 0%nat no_loader (SetEntry ∅ "vector"%string 1%nat) "const"%string).
  - reflexivity.
  - right. left. reflexivity.
Defined.

Lemma SetEntry_frame_witness :
  LookupEntry (SetEntry (SetEntry ∅ "vector"%string 1%nat) "const"%string 2%nat)
    "vector"%string = Some 1%nat.
Proof.
  apply (proj2 (SetEntry_frame (SetEntry ∅ "vector"%string 1%nat) "const"%string 2%nat)).
  reflexivity.
Defined.

End Instances.

(** * The further properties on concrete inputs *)

Module MoreInstances.

Import SparseTuple SparseTupleFacts SparseTupleMore.
Import Register RegisterFacts RegisterMore Tools ToolsFacts.
Import IntWeight Instances.
Local Open Scope Z_scope.

(** Rounding to a multiple of 2 twice is rounding once. *)
Lemma quantize_twice v : quantize (quantize v 2) 2 = quantize v 2.
Proof.
  unfold quantize. f_equal.
  replace (2 * ((2 * v + 2) / (2 * 2) * 2) + 2) with ((2 * v + 2) / (2 * 2) * (2 * 2) + 2) by lia.
  rewrite Z.div_add_l by lia. change (2 / (2 * 2)) with 0. lia.
Qed.

(** Two objects in a store. *)
Definition two_objects : gmap addr (SparseTupleWeight Z) :=
  <[0%nat := weightA]> (<[1%nat := paddedA]> ∅).

(** A register whose shared object for any key registers the entry 7
    under the key ["const"]. *)
Definition const_loader : Linker (KeyType:=string) (EntryType:=nat) :=
  {| no_dynamic_linking := false;
     ConvertKeyToSoFilename := fun key => String.append key "-fst.so";
     dlopen := fun _ table => (true, SetEntry table "const"%string 7%nat);
     run_module_initializers := fun table => table |}.

(** A script environment over FSTs that are just their type names:
    only ["in.fst"] can be read, and conversion renames the type. *)
Definition toy_script : Script string unit :=
  {| Read := fun name => if String.eqb name "in.fst" then Some "vector"%string else None;
     FstType := fun f => f;
     ArcTypeOf := fun _ => tt;
     Convert := fun _ type => Some type;
     VectorFstClass := fun _ => "vector"%string;
     Reverse := fun ifst out _ => out;
     Write := fun _ _ => false |}.

Lemma iterator_walk_witness :
  Done (advance 1 (it_begin weightB)) = negb (1 <? Size weightB)%nat
  /\ ((1 < Size weightB)%nat ->
      nth_error (components weightB) 1 = Some (Value (advance 1 (it_begin weightB))))
  /\ Reset (advance 1 (it_begin weightB)) = it_begin weightB.
Proof.
  apply (iterator_walk weightB 1).
  - intros Hk. discriminate Hk.
  - unfold Size. simpl. lia.
Defined.

Lemma ctor_range_components_witness :
  default_ (ctor_range [(2, 3); (3, 0); (4, 1)]) = W_Zero
  /\ components (ctor_range [(2, 3); (3, 0); (4, 1)])
     = List.filter (stored_value W_Zero) [(2, 3); (3, 0); (4, 1)]
  /\ (Size (ctor_range [(2, 3); (3, 0); (4, 1)]%Z) <= 3)%nat.
Proof.
  apply (ctor_range_components (W:=Z) [(2, 3); (3, 0); (4, 1)]).
  repeat constructor; discriminate.
Defined.

Lemma Quantize_idempotent_witness :
  Quantize (Quantize weightB 2) 2 = Quantize weightB 2.
Proof.
  apply (Quantize_idempotent weightB 2).
  - exact quantize_twice.
  - repeat constructor; discriminate.
Defined.

Lemma operator_eq_refl_any_witness :
  operator_eq (Push (Push ctor_default (4, 1) true) (2, 3) true)
    (Push (Push ctor_default (4, 1) true) (2, 3) true) = Some true.
Proof.
  apply (operator_eq_refl_any (W:=Z)).
  exact Z.eqb_refl.
Defined.

Lemma SparseTupleWeightMap_comm_witness :
  SparseTupleWeightMap ctor_default weightA weightB plus_mapper
  = SparseTupleWeightMap ctor_default weightB weightA plus_mapper.
Proof.
  apply (SparseTupleWeightMap_comm plus_mapper ctor_default weightA weightB).
  intros k a b. unfold plus_mapper. apply Z.add_comm.
Defined.

Lemma ctor_copy_equal_witness : operator_eq paddedA (ctor_copy paddedA) = Some true.
Proof.
  apply (ctor_copy_equal paddedA).
  - reflexivity.
  - repeat constructor; discriminate.
Defined.

Lemma read_write_equal_witness :
  exists r, operator_in (operator_out paddedA') weightB = Some r
            /\ operator_eq paddedA' r = Some true.
Proof.
  apply (read_write_equal paddedA' weightB).
  - reflexivity.
  - repeat constructor; discriminate.
Defined.

Lemma operator_assign_equal_witness :
  exists st' wt',
    operator_assign two_objects 0%nat 1%nat = Some (0%nat, st')
    /\ st' !! 0%nat = Some wt'
    /\ default_ wt' = default_ paddedA
    /\ operator_eq paddedA wt' = Some true
    /\ (forall a, a <> 0%nat -> st' !! a = two_objects !! a).
Proof.
  apply (operator_assign_equal two_objects 0%nat 1%nat weightA paddedA).
  - discriminate.
  - reflexivity.
  - reflexivity.
  - reflexivity.
  - repeat constructor; discriminate.
Defined.

Lemma SetEntry_commute_witness :
  SetEntry (SetEntry ∅ "vector"%string 1%nat) "const"%string 2%nat
  = SetEntry (SetEntry ∅ "const"%string 2%nat) "vector"%string 1%nat.
Proof.
  apply (SetEntry_commute ∅ "vector"%string 1%nat "const"%string 2%nat).
  discriminate.
Defined.

Lemma GetEntry_loaded_witness :
  GetEntry 0%nat const_loader ∅ "const"%string
  = (7%nat, run_module_initializers const_loader (SetEntry ∅ "const"%string 7%nat))
  /\ GetEntry 0%nat const_loader
       (run_module_initializers const_loader (SetEntry ∅ "const"%string 7%nat))
       "const"%string
     = (7%nat, run_module_initializers const_loader (SetEntry ∅ "const"%string 7%nat)).
Proof.
  apply (GetEntry_loaded 0%nat const_loader ∅ "const"%string
           (SetEntry ∅ "const"%string 7%nat) 7%nat); reflexivity.
Defined.

Lemma fstconvert_passthrough_witness :
  fst (fstconvert_main toy_script "vector" ["fstconvert"; "in.fst"; "out.fst"]%string) = 0
  /\ writes (snd (fstconvert_main toy_script "vector"
                    ["fstconvert"; "in.fst"; "out.fst"]%string))
     = [("vector"%string, out_name ["fstconvert"; "in.fst"; "out.fst"]%string)].
Proof.
  apply (fstconvert_passthrough toy_script "vector"%string
           ["fstconvert"; "in.fst"; "out.fst"]%string "vector"%string).
  - simpl. lia.
  - reflexivity.
  - reflexivity.
Defined.

Lemma operator_eq_canonical_witness :
  default_ weightB = default_ (ctor_copy weightB)
  /\ components weightB = components (ctor_copy weightB)
  /\ Hash weightB = Hash (ctor_copy weightB).
Proof.
  apply (operator_eq_canonical weightB (ctor_copy weightB)).
  - exact Z.eqb_eq.
  - reflexivity.
  - reflexivity.
  - repeat constructor.
  - repeat constructor.
  - reflexivity.
Defined.

Lemma Size_counts_stored_witness :
  Size (push_all true [(2, 3); (3, 0); (4, 1)] (Init unconstructed 0))
  = length (List.filter (stored_value 0) [(2, 3); (3, 0); (4, 1)])
  /\ default_ (push_all true [(2, 3); (3, 0); (4, 1)] (Init unconstructed 0)) = 0.
Proof.
  apply (Size_counts_stored (W:=Z) [(2, 3); (3, 0); (4, 1)] unconstructed 0).
  repeat constructor; discriminate.
Defined.

End MoreInstances.
